(** * LMSR pricing engine (lmsr.ts): shallow embedding and verification

    The engine works on JavaScript [bigint] values, which are unbounded
    integers: they are modelled as [Z].  BigInt division truncates towards
    zero, which is [Z.quot] (written [÷]), and throws a RangeError on a zero
    divisor.  The two [throw new Error] sites of [ln] and [log2] and the
    RangeError are the only ways a method can fail; they are modelled by a
    small error monad.  [while] loops are run with fuel; each use fixes an
    amount of fuel that is proved sufficient.

    After the engine come the off-chain channel ledger of
    working-p2p-demo.ts and the market state and settlement aggregation of
    real-yellow-broker-trading.ts. *)

From Stdlib Require Import ZArith Lia Bool.
From Stdlib Require Import String List.
Import ListNotations.
Local Open Scope Z_scope.

(** ** Outcomes of a method call *)

Inductive jserror : Type :=
| LnDomain      (* Error("ln: x must be positive")   *)
| Log2Domain    (* Error("log2: x must be positive") *)
| DivByZero.    (* RangeError: Division by zero      *)

Inductive outcome (A : Type) : Type :=
| Ok (a : A)
| Throw (e : jserror)
| OutOfFuel.

Arguments Ok {A} a.
Arguments Throw {A} e.
Arguments OutOfFuel {A}.

Definition bind {A B : Type} (m : outcome A) (k : A -> outcome B) : outcome B :=
  match m with
  | Ok a => k a
  | Throw e => Throw e
  | OutOfFuel => OutOfFuel
  end.

Notation "x <- m ;; k" := (bind m (fun x => k))
  (at level 61, m at next level, right associativity).
Notation "' p <- m ;; k" := (bind m (fun p => k))
  (at level 61, p pattern, m at next level, right associativity).

(** BigInt [a / b]. *)
Definition bigdiv (a b : Z) : outcome Z :=
  if b =? 0 then Throw DivByZero else Ok (a ÷ b).

(** ** JavaScript numbers that hold integers

    [Number(v)] of a bigint rounds [v] to the nearest double (ties to even,
    53 significant bits), or to an infinity.  The literals [2**256 - 1] and
    [693147180559945309] of the source are numbers before [BigInt(...)] sees
    them, so they are rounded too. *)

Inductive number : Type :=
| Fin (v : Z)
| PInf
| NInf.

Definition round_mag (m : Z) : Z :=
  if m <? 2 ^ 53 then m
  else
    let e := Z.log2 m - 52 in
    let q := m / 2 ^ e in
    let r := m mod 2 ^ e in
    let half := 2 ^ (e - 1) in
    let q' := if r <? half then q
              else if half <? r then q + 1
              else if Z.even q then q else q + 1 in
    q' * 2 ^ e.

Definition Number (v : Z) : number :=
  let m := round_mag (Z.abs v) in
  if 2 ^ 1024 <=? m then (if v <? 0 then NInf else PInf)
  else Fin (Z.sgn v * m).

Definition Math_abs (n : number) : number :=
  match n with
  | Fin v => Fin (Z.abs v)
  | PInf | NInf => PInf
  end.

Definition number_lt (a b : number) : bool :=
  match a, b with
  | Fin x, Fin y => x <? y
  | NInf, Fin _ | NInf, PInf | Fin _, PInf => true
  | _, _ => false
  end.

(** ** Constants of the source *)

(** [BigInt(10**18)]: the scale of every fixed-point value. *)
Definition WAD : Z := 1000000000000000000.

(** [BigInt(2**256 - 1)]: the subtraction is done on doubles and rounds
    back to [2**256]. *)
Definition EXP_MAX : Z := 2 ^ 256.

(** [BigInt(693147180559945309)]: the literal is the double
    693147180559945344. *)
Definition LN2 : Z := 693147180559945344.

(** ** Data *)

Record LMSRParams : Type := mkParams {
  b0 : Z;
  alpha : Z;
  beta : Z;
  V0 : Z
}.

Definition DEFAULT_LMSR_PARAMS : LMSRParams :=
  {| b0 := 100 * WAD;
     alpha := 5 * 10 ^ 16;
     beta := 2 * 10 ^ 16;
     V0 := 1000000 * WAD |}.

Definition DEFAULT_FEE_RATE : Z := 50.

Record TradePreview : Type := mkPreview {
  expectedShares : Z;
  newPrice : Z;
  priceImpact : Z;
  avgPrice : Z;
  fee : Z;
  netAmount : Z
}.

(** ** The methods of class LMSRPricer *)

Module LMSRPricer.

(** [expApprox]: five Taylor terms after the leading 1. *)
Definition expApprox (x : Z) : Z :=
  if x =? 0 then WAD
  else if 42 * WAD <=? x then EXP_MAX
  else
    let result := WAD in
    let term := x in
    let result := result + term in
    let term := (term * x) ÷ (2 * WAD) in
    let result := result + term in
    let term := (term * x) ÷ (3 * WAD) in
    let result := result + term in
    let term := (term * x) ÷ (4 * WAD) in
    let result := result + term in
    let term := (term * x) ÷ (5 * WAD) in
    let result := result + term in
    result.

(** The [while (y >= 2e18)] loop of [log2]; returns the final [(y, result)]. *)
Fixpoint log2_loop (fuel : nat) (y result : Z) : outcome (Z * Z) :=
  if 2 * WAD <=? y then
    match fuel with
    | O => OutOfFuel
    | S fuel' => log2_loop fuel' (y ÷ 2) (result + WAD)
    end
  else Ok (y, result).

(** The fractional part added by [log2] after the loop. *)
Definition log2_frac (y : Z) : Z :=
  if 15 * 10 ^ 17 <=? y then 5 * 10 ^ 17
  else if 125 * 10 ^ 16 <=? y then 32 * 10 ^ 16
  else 0.

Definition log2 (x : Z) : outcome Z :=
  if x <=? 0 then Throw Log2Domain
  else
    '(y, result) <- log2_loop (Z.to_nat (Z.log2 x)) x 0 ;;
    Ok (result + log2_frac y).

Definition ln (x : Z) : outcome Z :=
  if x <=? 0 then Throw LnDomain
  else if x =? WAD then Ok 0
  else
    log2x <- log2 x ;;
    Ok ((log2x * LN2) ÷ WAD).

(** The [while (z < y)] loop of [sqrt]. *)
Fixpoint sqrt_loop (fuel : nat) (x z y : Z) : outcome Z :=
  if z <? y then
    match fuel with
    | O => OutOfFuel
    | S fuel' =>
        q <- bigdiv x z ;;
        sqrt_loop fuel' x ((q + z) ÷ 2) z
    end
  else Ok y.

Definition sqrt (x : Z) : outcome Z :=
  if x =? 0 then Ok 0
  else
    let z := (x + 1) ÷ 2 in
    let y := x in
    sqrt_loop (S (Z.to_nat (Z.log2 x))) x z y.

Definition getCost (qYes qNo b : Z) : outcome Z :=
  if (qYes =? 0) && (qNo =? 0) then
    l <- ln (2 * WAD) ;;
    Ok ((b * l) ÷ WAD)
  else
    xYes <- bigdiv (qYes * WAD) b ;;
    let expYes := expApprox xYes in
    xNo <- bigdiv (qNo * WAD) b ;;
    let expNo := expApprox xNo in
    let sum := expYes + expNo in
    l <- ln sum ;;
    Ok ((b * l) ÷ WAD).

Definition getPrice (qYes qNo b : Z) : outcome (Z * Z) :=
  if (qYes =? 0) && (qNo =? 0) then Ok (5 * 10 ^ 17, 5 * 10 ^ 17)
  else
    xYes <- bigdiv (qYes * WAD) b ;;
    let expYes := expApprox xYes in
    xNo <- bigdiv (qNo * WAD) b ;;
    let expNo := expApprox xNo in
    let sumExp := expYes + expNo in
    if sumExp =? 0 then Ok (5 * 10 ^ 17, 5 * 10 ^ 17)
    else
      pYes <- bigdiv (expYes * WAD) sumExp ;;
      pNo <- bigdiv (expNo * WAD) sumExp ;;
      Ok (pYes, pNo).

(** The binary search of [calculateShares].  [budget] is
    [maxIterations - iterations], so the loop test
    [low < high && iterations < maxIterations] is the two tests below. *)
Fixpoint search_loop (budget : nat) (isYes : bool)
    (currentQYes currentQNo b targetCost low high : Z) : outcome Z :=
  match budget with
  | O => Ok low
  | S budget' =>
      if low <? high then
        let mid := (low + high) ÷ 2 in
        let newQYes := if isYes then currentQYes + mid else currentQYes in
        let newQNo := if isYes then currentQNo else currentQNo + mid in
        newCost <- getCost newQYes newQNo b ;;
        if newCost <? targetCost
        then search_loop budget' isYes currentQYes currentQNo b targetCost (mid + 1) high
        else search_loop budget' isYes currentQYes currentQNo b targetCost low mid
      else Ok low
  end.

Definition maxIterations : nat := 50.

Definition calculateShares (payAmount : Z) (isYes : bool)
    (currentQYes currentQNo b : Z) : outcome Z :=
  currentCost <- getCost currentQYes currentQNo b ;;
  let targetCost := currentCost + payAmount in
  search_loop maxIterations isYes currentQYes currentQNo b targetCost
    0 (payAmount * 10).

Definition previewTrade (payAmount : Z) (isYes : bool)
    (currentQYes currentQNo currentB feeRate : Z) : outcome TradePreview :=
  fee <- bigdiv (payAmount * feeRate) 10000 ;;
  let netAmount := payAmount - fee in
  expectedShares <- calculateShares netAmount isYes currentQYes currentQNo currentB ;;
  let newQYes := if isYes then currentQYes + expectedShares else currentQYes in
  let newQNo := if isYes then currentQNo else currentQNo + expectedShares in
  '(newPriceYes, newPriceNo) <- getPrice newQYes newQNo currentB ;;
  let newPrice := if isYes then newPriceYes else newPriceNo in
  '(currentPriceYes, currentPriceNo) <- getPrice currentQYes currentQNo currentB ;;
  let currentPrice := if isYes then currentPriceYes else currentPriceNo in
  priceImpact <-
    (if 0 <? currentPrice
     then bigdiv ((newPrice - currentPrice) * WAD) currentPrice
     else Ok 0) ;;
  avgPrice <-
    (if 0 <? expectedShares
     then bigdiv (netAmount * WAD) expectedShares
     else Ok 0) ;;
  Ok {| expectedShares := expectedShares;
        newPrice := newPrice;
        priceImpact := priceImpact;
        avgPrice := avgPrice;
        fee := fee;
        netAmount := netAmount |}.

Definition validateState (qYes qNo b : Z) : outcome bool :=
  if (qYes <? 0) || (qNo <? 0) || (b <=? 0) then Ok false
  else
    '(pYes, pNo) <- getPrice qYes qNo b ;;
    let priceSum := pYes + pNo in
    let tolerance := 10 ^ 15 in
    Ok (number_lt (Math_abs (Number (priceSum - WAD))) (Number tolerance)).

Section WithParams.

Variable params : LMSRParams.

Definition calculateB (totalVolume txCount : Z) : outcome Z :=
  if (totalVolume =? 0) && (txCount =? 0) then Ok (b0 params)
  else
    volumeRatio <- bigdiv (totalVolume * WAD) (V0 params) ;;
    sqrtVolume <- sqrt volumeRatio ;;
    lnTxCount <- ln (WAD + txCount * WAD) ;;
    let multiplier :=
      WAD + (alpha params * sqrtVolume) ÷ WAD + (beta params * lnTxCount) ÷ WAD in
    Ok ((b0 params * multiplier) ÷ WAD).

End WithParams.

End LMSRPricer.

Import LMSRPricer.

(** ** JavaScript [Map] with string keys

    A [Map] keeps its entries in insertion order; [set] replaces the value
    of a key that is present, in place, and appends a new key at the end.
    The values of the maps below are objects that the code mutates through
    the reference [get] returns: [Map_modify] is that mutation. *)

Definition JsMap (V : Type) : Type := list (string * V).

Fixpoint Map_get {V : Type} (k : string) (m : JsMap V) : option V :=
  match m with
  | [] => None
  | (k', v) :: m' => if String.eqb k k' then Some v else Map_get k m'
  end.

Fixpoint Map_set {V : Type} (k : string) (v : V) (m : JsMap V) : JsMap V :=
  match m with
  | [] => [(k, v)]
  | (k', v') :: m' =>
      if String.eqb k k' then (k', v) :: m' else (k', v') :: Map_set k v m'
  end.

Fixpoint Map_modify {V : Type} (k : string) (f : V -> V) (m : JsMap V) : JsMap V :=
  match m with
  | [] => []
  | (k', v) :: m' =>
      if String.eqb k k' then (k', f v) :: m' else (k', v) :: Map_modify k f m'
  end.

Definition Map_values {V : Type} (m : JsMap V) : list V := map snd m.

Definition Map_keys {V : Type} (m : JsMap V) : list string := map fst m.

(** ** working-p2p-demo.ts: the channel ledger of class WorkingP2PDemo

    Console output is left out.  What the code takes from outside is a
    parameter: [parseUnits] of ethers (absent when it throws), the channel
    and trade identifiers (hashes over [Date.now()]), the clock, and the
    outcome of each contract call. *)

Module WorkingP2PDemo.

Inductive TradeType : Type := YES | NO.

Record Balance : Type := mkBalance {
  yesShares : Z;
  noShares : Z;
  usdc : Z
}.

Record P2PTrade : Type := mkTrade {
  id : string;
  from : string;
  to : string;
  tradeType : TradeType;
  amount : string;
  timestamp : Z;
  trade_channelId : string;
  settled : bool
}.

Record ChannelState : Type := mkChannel {
  channelId : string;
  participants : list string;
  balances : JsMap Balance;
  trades : list P2PTrade;
  totalVolume : Z;
  isOpen : bool
}.

(** The [channels] field of the class. *)
Definition Channels : Type := JsMap ChannelState.

(** How a call of an async method ends. *)
Inductive Completion : Type :=
| Returned (result : bool)
| Rejected.   (* parseUnits threw: the promise is rejected *)

(** The contract calls of [settleChannel]. *)
Inductive ChainCall : Type :=
| Mint (recipient : string) (value : Z)
| Approve (spender : string) (value : Z)
| BuyYes (value minShares : Z)
| BuyNo (value minShares : Z).




Definition getChannelState (channels : Channels) (cid : string) : option ChannelState :=
  Map_get cid channels.

Definition creditShares (tt : TradeType) (shares : Z) (b : Balance) : Balance :=
  match tt with
  | YES => {| yesShares := yesShares b + shares; noShares := noShares b; usdc := usdc b |}
  | NO => {| yesShares := yesShares b; noShares := noShares b + shares; usdc := usdc b |}
  end.

Definition addUsdc (delta : Z) (b : Balance) : Balance :=
  {| yesShares := yesShares b; noShares := noShares b; usdc := usdc b + delta |}.

Section WithEthers.

(** [parseUnits(value, decimals)] of ethers; [None] when it throws. *)
Variable parseUnits : string -> Z -> option Z.

Definition executeP2PTrade (channels : Channels)
    (cid fromAddress toAddress : string) (tt : TradeType) (usdcAmount : string)
    (tradeId : string) (now : Z) : Channels * Completion :=
  match Map_get cid channels with
  | None => (channels, Returned false)
  | Some channel =>
      if negb (isOpen channel) then (channels, Returned false)
      else
        match parseUnits usdcAmount 18 with
        | None => (channels, Rejected)
        | Some amt =>
            match Map_get fromAddress (balances channel),
                  Map_get toAddress (balances channel) with
            | Some fromBalance, Some toBalance =>
                if usdc fromBalance <? amt then (channels, Returned false)
                else
                  let sharesReceived := (amt * 95) ÷ 100 in
                  let bal := Map_modify fromAddress (addUsdc (- amt)) (balances channel) in
                  let bal := Map_modify toAddress (addUsdc amt) bal in
                  let bal := Map_modify fromAddress (creditShares tt sharesReceived) bal in
                  let trade :=
                    {| id := tradeId;
                       from := fromAddress;
                       to := toAddress;
                       tradeType := tt;
                       amount := usdcAmount;
                       timestamp := now;
                       trade_channelId := cid;
                       settled := false |} in
                  let channel' :=
                    {| channelId := channelId channel;
                       participants := participants channel;
                       balances := bal;
                       trades := trades channel ++ [trade];
                       totalVolume := totalVolume channel + amt;
                       isOpen := isOpen channel |} in
                  (Map_set cid channel' channels, Returned true)
            | _, _ => (channels, Returned false)
            end
        end
  end.

End WithEthers.

Definition totalYesShares (bal : JsMap Balance) : Z :=
  fold_left (fun acc b => acc + yesShares b) (Map_values bal) 0.

Definition totalNoShares (bal : JsMap Balance) : Z :=
  fold_left (fun acc b => acc + noShares b) (Map_values bal) 0.

(** [YELLOW_CONFIG.predictionMarketContract]. *)
Definition predictionMarketContract : string :=
  "0x9666405EB1cb094bC0E1b83D2be3BD884eD39169".

(** The contract calls of [settleChannel], in order, for the two totals. *)
Definition settlementCalls (settler : string) (totalYes totalNo : Z) : list ChainCall :=
  [Mint settler (totalYes + totalNo);
   Approve predictionMarketContract (totalYes + totalNo)]
  ++ (if 0 <? totalYes then [BuyYes totalYes 0] else [])
  ++ (if 0 <? totalNo then [BuyNo totalNo 0] else []).

(** Runs the calls until one throws; returns the calls that went through. *)
Fixpoint runCalls (succeeds : ChainCall -> bool) (calls : list ChainCall)
    : list ChainCall * bool :=
  match calls with
  | [] => ([], true)
  | c :: rest =>
      if succeeds c then
        let '(done, ok) := runCalls succeeds rest in (c :: done, ok)
      else ([], false)
  end.

Definition markSettled (t : P2PTrade) : P2PTrade :=
  {| id := id t; from := from t; to := to t; tradeType := tradeType t;
     amount := amount t; timestamp := timestamp t;
     trade_channelId := trade_channelId t; settled := true |}.

Definition settleChannel (channels : Channels) (cid settler : string)
    (succeeds : ChainCall -> bool) : Channels * list ChainCall * bool :=
  match Map_get cid channels with
  | None => (channels, [], false)
  | Some channel =>
      let totalYes := totalYesShares (balances channel) in
      let totalNo := totalNoShares (balances channel) in
      if (totalYes =? 0) && (totalNo =? 0) then (channels, [], false)
      else
        let '(done, ok) := runCalls succeeds (settlementCalls settler totalYes totalNo) in
        if ok then
          let channel' :=
            {| channelId := channelId channel;
               participants := participants channel;
               balances := balances channel;
               trades := map markSettled (trades channel);
               totalVolume := totalVolume channel;
               isOpen := false |} in
          (Map_set cid channel' channels, done, true)
        else (channels, done, false)
  end.

End WorkingP2PDemo.

(** ** real-yellow-broker-trading.ts: the market state of class
    RealYellowNetworkBroker

    The class keeps a simplified LMSR state ([qYes], [qNo], [totalVolume],
    [txCount]) that [executeRealP2PTrade] updates before it builds, signs
    and sends the trade message.  The state and its update are modelled;
    messages, signatures and the socket are not.  [txCount] is a JavaScript
    number: [txCount += 1] rounds, [BigInt(txCount)] is exact.  The
    [parseUnits] calls of the class all have literal arguments, whose values
    are written out. *)

Module RealYellowNetworkBroker.

Record MarketState : Type := mkMarket {
  qYes : Z;
  qNo : Z;
  totalVolume : Z;
  txCount : Z
}.

(** The field initialisers of the class. *)
Definition initialState : MarketState :=
  {| qYes := 100 * 10 ^ 6;       (* parseUnits("100", 6) *)
     qNo := 100 * 10 ^ 6;        (* parseUnits("100", 6) *)
     totalVolume := 0;
     txCount := 0 |}.

(** [n + 1] on numbers that hold integers. *)
Definition number_succ (n : Z) : Z :=
  match Number (n + 1) with
  | Fin v => v
  | PInf | NInf => n
  end.

Definition calculateDynamicB (st : MarketState) : outcome Z :=
  let baseB := 100 * 10 ^ 6 in                               (* parseUnits("100", 6) *)
  volumeFactor <- bigdiv (totalVolume st) (1000 * 10 ^ 6) ;; (* parseUnits("1000", 6) *)
  let txFactor := txCount st in
  Ok (baseB + volumeFactor + txFactor).

(** [yes] is the [outcome] flag of the source; the result is
    [(shares, newPrice)]. *)
Definition calculateLMSRTrade (st : MarketState) (yes : bool) (amount b : Z)
    : outcome (Z * Z) :=
  let currentQ := if yes then qYes st else qNo st in
  ratio <- bigdiv currentQ b ;;
  shares <- bigdiv (amount * 10 ^ 18) (10 ^ 6 + ratio) ;;
  let newQYes := if yes then qYes st + shares else qYes st in
  let newQNo := if yes then qNo st else qNo st + shares in
  price <- bigdiv (newQYes * 10 ^ 18) (newQYes + newQNo) ;;
  Ok (shares, price).

(** The market-state part of [executeRealP2PTrade]: the new state with the
    shares and the price that go into the trade message. *)
Definition executeRealP2PTrade (st : MarketState) (yes : bool) (amount : Z)
    : outcome (MarketState * Z * Z) :=
  b <- calculateDynamicB st ;;
  '(shares, newPrice) <- calculateLMSRTrade st yes amount b ;;
  Ok ({| qYes := if yes then qYes st + shares else qYes st;
         qNo := if yes then qNo st else qNo st + shares;
         totalVolume := totalVolume st + amount;
         txCount := number_succ (txCount st) |},
      shares, newPrice).





Section WithBigInt.

(** [BigInt(s)] of a string; [None] when it throws. *)
Variable BigInt_of_string : string -> option Z.




End WithBigInt.

End RealYellowNetworkBroker.

(** The market state after a list of trades [(yes, amount)], oldest first;
    the first trade that throws ends the run. *)
Fixpoint brokerRun (st : RealYellowNetworkBroker.MarketState)
    (ts : list (bool * Z)) : outcome RealYellowNetworkBroker.MarketState :=
  match ts with
  | [] => Ok st
  | (yes, amount) :: ts' =>
      '(st', _, _) <- RealYellowNetworkBroker.executeRealP2PTrade st yes amount ;;
      brokerRun st' ts'
  end.

(** ** Definitions used by the statements *)

(** The polynomial branch of [expApprox]. *)
Definition taylor5 (x : Z) : Z :=
  let t2 := (x * x) ÷ (2 * WAD) in
  let t3 := (t2 * x) ÷ (3 * WAD) in
  let t4 := (t3 * x) ÷ (4 * WAD) in
  let t5 := (t4 * x) ÷ (5 * WAD) in
  WAD + x + t2 + t3 + t4 + t5.

(** The sum of the two exponentials that [getCost] and [getPrice] form. *)
Definition expSum (qYes qNo b : Z) : Z :=
  expApprox ((qYes * WAD) ÷ b) + expApprox ((qNo * WAD) ÷ b).

(** Cost of the state reached by buying [s] shares of the chosen outcome:
    the [getCost(newQYes, newQNo, b)] call of the search loop at [mid = s]. *)
Definition costAfter (isYes : bool) (qYes qNo b s : Z) : outcome Z :=
  getCost (if isYes then qYes + s else qYes) (if isYes then qNo else qNo + s) b.

(** Every quantity below [low] costs less than the target. *)
Definition all_below (isYes : bool) (qYes qNo b target low : Z) : Prop :=
  forall s c, 0 <= s < low -> costAfter isYes qYes qNo b s = Ok c -> c < target.

(** [r] is the largest quantity whose cost is at most [payAmount]: buying
    [r] costs at most [payAmount], and every larger quantity costs more. *)
Definition largest_affordable (payAmount : Z) (isYes : bool) (qYes qNo b r : Z) : Prop :=
  exists c0,
    getCost qYes qNo b = Ok c0 /\
    (exists cr, costAfter isYes qYes qNo b r = Ok cr /\ cr - c0 <= payAmount) /\
    (forall s cs, r < s -> costAfter isYes qYes qNo b s = Ok cs -> payAmount < cs - c0).

(** Sum of one numeric field over the values of a map. *)
Definition sumBy {V : Type} (g : V -> Z) (m : JsMap V) : Z :=
  fold_left (fun acc v => acc + g v) (Map_values m) 0.

(** USDC held in a channel, all participants together. *)
Definition totalUsdc (bal : JsMap WorkingP2PDemo.Balance) : Z :=
  sumBy WorkingP2PDemo.usdc bal.

(** The channel after a trade of [amt] that [executeP2PTrade] accepts. *)
Definition tradedChannel (channel : WorkingP2PDemo.ChannelState)
    (cid fromAddress toAddress : string) (tt : WorkingP2PDemo.TradeType)
    (usdcAmount : string) (amt : Z) (tradeId : string) (now : Z)
    : WorkingP2PDemo.ChannelState :=
  WorkingP2PDemo.mkChannel
    (WorkingP2PDemo.channelId channel)
    (WorkingP2PDemo.participants channel)
    (Map_modify fromAddress (WorkingP2PDemo.creditShares tt ((amt * 95) ÷ 100))
       (Map_modify toAddress (WorkingP2PDemo.addUsdc amt)
          (Map_modify fromAddress (WorkingP2PDemo.addUsdc (- amt))
             (WorkingP2PDemo.balances channel))))
    (WorkingP2PDemo.trades channel ++
       [WorkingP2PDemo.mkTrade tradeId fromAddress toAddress tt usdcAmount now cid false])
    (WorkingP2PDemo.totalVolume channel + amt)
    (WorkingP2PDemo.isOpen channel).

(** When [executeP2PTrade] goes through: the channel is known and open, the
    amount parses, both parties are in the channel and the sender holds at
    least the amount. *)
Definition tradeAccepted (parseUnits : string -> Z -> option Z)
    (channels : WorkingP2PDemo.Channels) (cid fromAddress toAddress usdcAmount : string)
    (channel : WorkingP2PDemo.ChannelState) (amt : Z)
    (fromBalance toBalance : WorkingP2PDemo.Balance) : Prop :=
  Map_get cid channels = Some channel /\
  WorkingP2PDemo.isOpen channel = true /\
  parseUnits usdcAmount 18 = Some amt /\
  Map_get fromAddress (WorkingP2PDemo.balances channel) = Some fromBalance /\
  Map_get toAddress (WorkingP2PDemo.balances channel) = Some toBalance /\
  amt <= WorkingP2PDemo.usdc fromBalance.

(** No participant of the channel owes USDC or shares. *)
Definition nonnegBalances (bal : JsMap WorkingP2PDemo.Balance) : Prop :=
  forall p b, Map_get p bal = Some b ->
    0 <= WorkingP2PDemo.usdc b /\
    0 <= WorkingP2PDemo.yesShares b /\
    0 <= WorkingP2PDemo.noShares b.

Definition sumZ (l : list Z) : Z := fold_right Z.add 0 l.








(** ** Arithmetic helpers *)

Lemma Ok_inj {A : Type} (a a' : A) : Ok a = Ok a' -> a = a'.
Proof. intros E. injection E as E. exact E. Qed.

Lemma WAD_pos : 0 < WAD.
Proof. reflexivity. Qed.

Lemma bigdiv_pos (a b : Z) : 0 < b -> bigdiv a b = Ok (a ÷ b).
Proof.
  intros Hb. unfold bigdiv.
  destruct (Z.eqb_spec b 0) as [E | _]; [lia | reflexivity].
Qed.

Lemma quot_scaled_mono (c t t' x x' : Z) :
  0 < c -> 0 <= t <= t' -> 0 <= x <= x' ->
  0 <= (t * x) ÷ c <= (t' * x') ÷ c.
Proof.
  intros Hc Ht Hx. split.
  - apply Z.quot_pos; nia.
  - apply Z.quot_le_mono; nia.
Qed.

Lemma quot_mul_mono (b l l' : Z) :
  0 <= b -> l <= l' -> (b * l) ÷ WAD <= (b * l') ÷ WAD.
Proof.
  intros Hb Hl. apply Z.quot_le_mono; [exact WAD_pos | nia].
Qed.

(** ** expApprox *)

Lemma expApprox_unfold (x : Z) :
  expApprox x =
  if x =? 0 then WAD else if 42 * WAD <=? x then EXP_MAX else taylor5 x.
Proof. reflexivity. Qed.

Lemma taylor5_mono (x x' : Z) :
  0 <= x <= x' -> WAD + x <= taylor5 x <= taylor5 x'.
Proof.
  intros Hx. unfold taylor5.
  assert (H2 := quot_scaled_mono (2 * WAD) x x' x x' eq_refl Hx Hx).
  assert (H3 := quot_scaled_mono (3 * WAD) _ _ x x' eq_refl H2 Hx).
  assert (H4 := quot_scaled_mono (4 * WAD) _ _ x x' eq_refl H3 Hx).
  assert (H5 := quot_scaled_mono (5 * WAD) _ _ x x' eq_refl H4 Hx).
  cbv zeta. lia.
Qed.

Lemma taylor5_below_max (x : Z) : 0 <= x <= 42 * WAD -> taylor5 x <= EXP_MAX.
Proof.
  intros Hx.
  apply Z.le_trans with (taylor5 (42 * WAD)).
  - apply taylor5_mono. lia.
  - vm_compute. discriminate.
Qed.

Lemma expApprox_ge_WAD (x : Z) : 0 <= x -> WAD <= expApprox x.
Proof.
  intros Hx. rewrite expApprox_unfold.
  destruct (Z.eqb_spec x 0); [lia |].
  destruct (Z.leb_spec (42 * WAD) x).
  - vm_compute. discriminate.
  - pose proof (taylor5_mono x x). lia.
Qed.

Lemma expApprox_mono (x x' : Z) :
  0 <= x <= x' -> expApprox x <= expApprox x'.
Proof.
  intros Hx. rewrite !expApprox_unfold.
  destruct (Z.eqb_spec x 0) as [-> | Hx0].
  - fold (expApprox x'). rewrite <- expApprox_unfold.
    apply expApprox_ge_WAD. lia.
  - destruct (Z.eqb_spec x' 0); [lia |].
    destruct (Z.leb_spec (42 * WAD) x), (Z.leb_spec (42 * WAD) x'); try lia.
    + apply taylor5_below_max. lia.
    + apply taylor5_mono. lia.
Qed.

(** ** log2 and ln *)

Lemma log2_frac_bounds (y : Z) : 0 <= log2_frac y <= 5 * 10 ^ 17.
Proof.
  unfold log2_frac.
  destruct (Z.leb_spec (15 * 10 ^ 17) y); [lia |].
  destruct (Z.leb_spec (125 * 10 ^ 16) y); lia.
Qed.

Lemma log2_frac_mono (y y' : Z) : y <= y' -> log2_frac y <= log2_frac y'.
Proof.
  intros Hy. unfold log2_frac.
  destruct (Z.leb_spec (15 * 10 ^ 17) y), (Z.leb_spec (15 * 10 ^ 17) y');
    destruct (Z.leb_spec (125 * 10 ^ 16) y), (Z.leb_spec (125 * 10 ^ 16) y'); lia.
Qed.

(** Enough fuel: the loop halves [y] at most [fuel] times. *)
Lemma log2_loop_total (fuel : nat) :
  forall y result, y < 2 ^ Z.of_nat fuel * 2 ->
    exists yf rf, log2_loop fuel y result = Ok (yf, rf).
Proof.
  induction fuel as [| fuel IH]; intros y result Hy.
  - cbn [log2_loop]. destruct (Z.leb_spec (2 * WAD) y) as [H | H].
    + unfold WAD in H. simpl in Hy. lia.
    + eauto.
  - cbn [log2_loop]. destruct (Z.leb_spec (2 * WAD) y) as [H | H].
    + apply IH. rewrite Nat2Z.inj_succ, Z.pow_succ_r in Hy by lia.
      unfold WAD in H. rewrite Z.quot_div_nonneg by lia.
      apply Z.div_lt_upper_bound; lia.
    + eauto.
Qed.

Lemma log2_loop_result (fuel : nat) :
  forall y result yf rf,
    log2_loop fuel y result = Ok (yf, rf) ->
    result <= rf /\ yf < 2 * WAD /\ (y <= yf \/ result + WAD <= rf).
Proof.
  induction fuel as [| fuel IH]; intros y result yf rf; cbn [log2_loop];
    destruct (Z.leb_spec (2 * WAD) y) as [H | H]; intros E;
    try discriminate; try (injection E as <- <-; lia).
  apply IH in E. pose proof WAD_pos. lia.
Qed.

Lemma log2_loop_mono (fuel : nat) :
  forall fuel' y y' r r' yf rf yf' rf',
    y <= y' -> r <= r' ->
    log2_loop fuel y r = Ok (yf, rf) ->
    log2_loop fuel' y' r' = Ok (yf', rf') ->
    rf + log2_frac yf <= rf' + log2_frac yf'.
Proof.
  induction fuel as [| fuel IH]; intros fuel' y y' r r' yf rf yf' rf' Hy Hr;
    cbn [log2_loop]; destruct (Z.leb_spec (2 * WAD) y) as [H | H]; intros E E';
    try discriminate.
  - injection E as <- <-.
    destruct fuel'; cbn [log2_loop] in E';
      destruct (Z.leb_spec (2 * WAD) y') as [H' | H']; try discriminate.
    + injection E' as <- <-. pose proof (log2_frac_mono y y' Hy). lia.
    + apply log2_loop_result in E'.
      pose proof (log2_frac_bounds y). pose proof (log2_frac_bounds yf').
      unfold WAD in *. lia.
    + injection E' as <- <-. pose proof (log2_frac_mono y y' Hy). lia.
  - destruct fuel'; cbn [log2_loop] in E';
      destruct (Z.leb_spec (2 * WAD) y') as [H' | H']; try discriminate; try lia.
    apply (IH fuel' (y ÷ 2) (y' ÷ 2) (r + WAD) (r' + WAD)); auto; try lia.
    apply Z.quot_le_mono; lia.
  - injection E as <- <-.
    destruct fuel'; cbn [log2_loop] in E';
      destruct (Z.leb_spec (2 * WAD) y') as [H' | H']; try discriminate.
    + injection E' as <- <-. pose proof (log2_frac_mono y y' Hy). lia.
    + apply log2_loop_result in E'.
      pose proof (log2_frac_bounds y). pose proof (log2_frac_bounds yf').
      unfold WAD in *. lia.
    + injection E' as <- <-. pose proof (log2_frac_mono y y' Hy). lia.
Qed.

Lemma log2_total (x : Z) : 0 < x -> exists v, log2 x = Ok v /\ 0 <= v.
Proof.
  intros Hx. unfold log2.
  destruct (Z.leb_spec x 0); [lia |].
  destruct (log2_loop_total (Z.to_nat (Z.log2 x)) x 0) as (yf & rf & E).
  - rewrite Z2Nat.id by apply Z.log2_nonneg.
    pose proof (Z.log2_spec x Hx) as Hs.
    rewrite Z.pow_succ_r in Hs by apply Z.log2_nonneg. lia.
  - rewrite E. cbn. exists (rf + log2_frac yf). split; [reflexivity |].
    apply log2_loop_result in E. pose proof (log2_frac_bounds yf). lia.
Qed.

Lemma log2_mono (x x' v v' : Z) :
  0 < x <= x' -> log2 x = Ok v -> log2 x' = Ok v' -> v <= v'.
Proof.
  intros Hx. unfold log2.
  destruct (Z.leb_spec x 0); [lia |].
  destruct (Z.leb_spec x' 0); [lia |].
  destruct (log2_loop _ x 0) as [[yf rf] | |] eqn:E; try discriminate.
  destruct (log2_loop _ x' 0) as [[yf' rf'] | |] eqn:E'; try discriminate.
  cbn. intros [= <-] [= <-].
  eapply log2_loop_mono; [| | exact E | exact E']; lia.
Qed.

Lemma ln_total (x : Z) : 0 < x -> exists v, ln x = Ok v /\ 0 <= v.
Proof.
  intros Hx. unfold ln.
  destruct (Z.leb_spec x 0); [lia |].
  destruct (Z.eqb_spec x WAD).
  - exists 0. split; [reflexivity | lia].
  - destruct (log2_total x Hx) as (v & E & Hv). rewrite E. cbn.
    eexists. split; [reflexivity |].
    apply Z.quot_pos; [| exact WAD_pos]. unfold LN2. lia.
Qed.

Lemma log2_at_most_WAD (x : Z) : 0 < x <= WAD -> log2 x = Ok 0.
Proof.
  intros Hx. unfold log2.
  destruct (Z.leb_spec x 0); [lia |].
  assert (E : forall f, log2_loop f x 0 = Ok (x, 0)).
  { intros f. destruct f; cbn [log2_loop];
      destruct (Z.leb_spec (2 * WAD) x); try reflexivity; unfold WAD in *; lia. }
  rewrite E. cbn. unfold log2_frac.
  destruct (Z.leb_spec (15 * 10 ^ 17) x); [unfold WAD in *; lia |].
  destruct (Z.leb_spec (125 * 10 ^ 16) x); [unfold WAD in *; lia | reflexivity].
Qed.

Lemma ln_mono (x x' v v' : Z) :
  0 < x <= x' -> ln x = Ok v -> ln x' = Ok v' -> v <= v'.
Proof.
  intros Hx E E'.
  assert (G : forall u w, 0 < u -> ln u = Ok w ->
            exists l, log2 u = Ok l /\ w = (l * LN2) ÷ WAD).
  { intros u w Hu. unfold ln.
    destruct (Z.leb_spec u 0); [lia |].
    destruct (Z.eqb_spec u WAD) as [-> | _].
    - intros [= <-]. exists 0. split; [| reflexivity].
      apply log2_at_most_WAD. pose proof WAD_pos. lia.
    - destruct (log2 u) as [l | |]; cbn; try discriminate.
      intros [= <-]. eauto. }
  destruct (G x v) as (l & L & ->); [lia | exact E |].
  destruct (G x' v') as (l' & L' & ->); [lia | exact E' |].
  pose proof (log2_mono x x' l l' Hx L L').
  apply Z.quot_le_mono; [exact WAD_pos |]. unfold LN2. nia.
Qed.

(** ** getCost *)

(** [q * 10^18 / b] for a valid state. *)
Lemma scaled_ratio (q b : Z) :
  0 <= q -> 0 < b ->
  bigdiv (q * WAD) b = Ok ((q * WAD) ÷ b) /\ 0 <= (q * WAD) ÷ b.
Proof.
  intros Hq Hb. split; [apply bigdiv_pos; exact Hb |].
  apply Z.quot_pos; [| lia]. pose proof WAD_pos. nia.
Qed.

Lemma scaled_ratio_mono (q q' b : Z) :
  0 <= q <= q' -> 0 < b -> (q * WAD) ÷ b <= (q' * WAD) ÷ b.
Proof.
  intros Hq Hb. apply Z.quot_le_mono; [exact Hb |]. pose proof WAD_pos. nia.
Qed.

Lemma expSum_ge (qYes qNo b : Z) :
  0 <= qYes -> 0 <= qNo -> 0 < b -> 2 * WAD <= expSum qYes qNo b.
Proof.
  intros HY HN Hb. unfold expSum.
  pose proof (expApprox_ge_WAD _ (proj2 (scaled_ratio qYes b HY Hb))).
  pose proof (expApprox_ge_WAD _ (proj2 (scaled_ratio qNo b HN Hb))).
  lia.
Qed.

Lemma expSum_mono (qYes qYes' qNo qNo' b : Z) :
  0 <= qYes <= qYes' -> 0 <= qNo <= qNo' -> 0 < b ->
  expSum qYes qNo b <= expSum qYes' qNo' b.
Proof.
  intros HY HN Hb. unfold expSum.
  pose proof (expApprox_mono ((qYes * WAD) ÷ b) ((qYes' * WAD) ÷ b)) as H1.
  pose proof (expApprox_mono ((qNo * WAD) ÷ b) ((qNo' * WAD) ÷ b)) as H2.
  pose proof (scaled_ratio qYes b). pose proof (scaled_ratio qNo b).
  pose proof (scaled_ratio_mono qYes qYes' b HY Hb).
  pose proof (scaled_ratio_mono qNo qNo' b HN Hb).
  lia.
Qed.

(** The zero-quantity shortcut of [getCost] agrees with its general path. *)
Lemma getCost_unfold (qYes qNo b : Z) :
  0 < b ->
  getCost qYes qNo b = (l <- ln (expSum qYes qNo b) ;; Ok ((b * l) ÷ WAD)).
Proof.
  intros Hb. unfold getCost, expSum.
  destruct (Z.eqb_spec qYes 0) as [-> | HY]; cbn [andb].
  - destruct (Z.eqb_spec qNo 0) as [-> | HN].
    + rewrite Z.mul_0_l, Z.quot_0_l by lia. reflexivity.
    + rewrite !bigdiv_pos by exact Hb. reflexivity.
  - rewrite !bigdiv_pos by exact Hb. reflexivity.
Qed.

Lemma getCost_total (qYes qNo b : Z) :
  0 <= qYes -> 0 <= qNo -> 0 < b ->
  exists l, ln (expSum qYes qNo b) = Ok l /\ 0 <= l /\
            getCost qYes qNo b = Ok ((b * l) ÷ WAD).
Proof.
  intros HY HN Hb. rewrite getCost_unfold by exact Hb.
  pose proof (expSum_ge qYes qNo b HY HN Hb) as Hs.
  destruct (ln_total (expSum qYes qNo b)) as (l & E & Hl).
  { pose proof WAD_pos. lia. }
  exists l. rewrite E. auto.
Qed.

Lemma getCost_mono (qYes qYes' qNo qNo' b c c' : Z) :
  0 <= qYes <= qYes' -> 0 <= qNo <= qNo' -> 0 < b ->
  getCost qYes qNo b = Ok c -> getCost qYes' qNo' b = Ok c' -> c <= c'.
Proof.
  intros HY HN Hb.
  destruct (getCost_total qYes qNo b) as (l & L & _ & ->); try lia.
  destruct (getCost_total qYes' qNo' b) as (l' & L' & _ & ->); try lia.
  intros [= <-] [= <-].
  apply quot_mul_mono; [lia |].
  apply (ln_mono (expSum qYes qNo b) (expSum qYes' qNo' b)); auto.
  pose proof (expSum_ge qYes qNo b). pose proof WAD_pos.
  pose proof (expSum_mono qYes qYes' qNo qNo' b HY HN Hb). lia.
Qed.

Lemma getCost_sym (qYes qNo b : Z) : getCost qYes qNo b = getCost qNo qYes b.
Proof.
  unfold getCost. rewrite (andb_comm (qNo =? 0)).
  destruct ((qYes =? 0) && (qNo =? 0)); [reflexivity |].
  unfold bigdiv. destruct (b =? 0); [reflexivity |]. cbn.
  rewrite Z.add_comm. reflexivity.
Qed.

(** ** getPrice *)

Lemma split_floor (a b s : Z) :
  0 <= a -> 0 <= b -> 0 < a + b -> 0 <= s ->
  s - 1 <= (a * s) ÷ (a + b) + (b * s) ÷ (a + b) <= s.
Proof.
  intros Ha Hb Hn Hs.
  rewrite !Z.quot_div_nonneg by nia.
  pose proof (Z.div_mod (a * s) (a + b)) as Da.
  pose proof (Z.div_mod (b * s) (a + b)) as Db.
  pose proof (Z.mod_pos_bound (a * s) (a + b) Hn).
  pose proof (Z.mod_pos_bound (b * s) (a + b) Hn).
  specialize (Da ltac:(lia)). specialize (Db ltac:(lia)).
  set (qa := a * s / (a + b)) in *. set (qb := b * s / (a + b)) in *.
  set (ra := (a * s) mod (a + b)) in *. set (rb := (b * s) mod (a + b)) in *.
  assert (E : (a + b) * s = (a + b) * (qa + qb) + (ra + rb)) by lia.
  split; nia.
Qed.

Lemma getPrice_unfold (qYes qNo b : Z) :
  0 <= qYes -> 0 <= qNo -> 0 < b ->
  getPrice qYes qNo b =
  if (qYes =? 0) && (qNo =? 0) then Ok (5 * 10 ^ 17, 5 * 10 ^ 17)
  else Ok ((expApprox ((qYes * WAD) ÷ b) * WAD) ÷ expSum qYes qNo b,
           (expApprox ((qNo * WAD) ÷ b) * WAD) ÷ expSum qYes qNo b).
Proof.
  intros HY HN Hb. unfold getPrice.
  destruct ((qYes =? 0) && (qNo =? 0)); [reflexivity |].
  rewrite !bigdiv_pos by exact Hb. cbn [bind].
  pose proof (expSum_ge qYes qNo b HY HN Hb) as Hs. pose proof WAD_pos.
  fold (expSum qYes qNo b).
  destruct (Z.eqb_spec (expSum qYes qNo b) 0); [lia |].
  rewrite !bigdiv_pos by lia. reflexivity.
Qed.

Lemma getPrice_sum (qYes qNo b : Z) :
  0 <= qYes -> 0 <= qNo -> 0 < b ->
  exists pYes pNo, getPrice qYes qNo b = Ok (pYes, pNo) /\
                   WAD - 1 <= pYes + pNo <= WAD.
Proof.
  intros HY HN Hb. rewrite getPrice_unfold by assumption.
  destruct ((qYes =? 0) && (qNo =? 0)).
  - do 2 eexists. split; [reflexivity |]. vm_compute. split; discriminate.
  - do 2 eexists. split; [reflexivity |].
    pose proof (expApprox_ge_WAD _ (proj2 (scaled_ratio qYes b HY Hb))).
    pose proof (expApprox_ge_WAD _ (proj2 (scaled_ratio qNo b HN Hb))).
    pose proof WAD_pos. unfold expSum.
    apply split_floor; lia.
Qed.

(** ** sqrt *)

Lemma newton_above_root (x y : Z) :
  0 <= x -> 0 < y -> Z.sqrt x <= (x / y + y) / 2.
Proof.
  intros Hx Hy. pose proof (Z.sqrt_spec x Hx) as [Hs _].
  pose proof (Z.sqrt_nonneg x).
  apply Z.div_le_lower_bound; [lia |].
  assert (2 * Z.sqrt x - y <= x / y); [| lia].
  apply Z.div_le_lower_bound; [lia |].
  pose proof (Z.square_nonneg (Z.sqrt x - y)). nia.
Qed.

Lemma newton_halves_gap (x y : Z) :
  0 <= x -> Z.sqrt x < y -> 2 * ((x / y + y) / 2 - Z.sqrt x) <= y - Z.sqrt x.
Proof.
  intros Hx Hy. pose proof (Z.sqrt_spec x Hx) as [_ Hs].
  pose proof (Z.sqrt_nonneg x).
  assert (Hq : x / y <= Z.sqrt x).
  { assert (x / y < Z.succ (Z.sqrt x)); [| lia].
    apply Z.div_lt_upper_bound; [lia |]. nia. }
  pose proof (Z.mul_div_le (x / y + y) 2 eq_refl). lia.
Qed.

Lemma newton_fixpoint (x y : Z) :
  0 <= x -> 0 < y -> Z.sqrt x <= y -> y <= (x / y + y) / 2 -> y = Z.sqrt x.
Proof.
  intros Hx Hy Hlo Hhi. pose proof (Z.sqrt_spec x Hx) as [_ Hs].
  assert (Hq : y <= x / y).
  { pose proof (Z.mul_div_le (x / y + y) 2 eq_refl). lia. }
  pose proof (Z.mul_div_le x y Hy).
  assert (Hyy : y * y <= x) by nia.
  destruct (Z.eq_dec y (Z.sqrt x)) as [E | Hne]; [exact E | exfalso].
  pose proof (Z.sqrt_nonneg x).
  assert (Z.succ (Z.sqrt x) * Z.succ (Z.sqrt x) <= y * y)
    by (apply Z.mul_le_mono_nonneg; lia).
  lia.
Qed.

Lemma sqrt_loop_spec (fuel : nat) :
  forall x y,
    0 < x -> 0 < y -> Z.sqrt x <= y -> y - Z.sqrt x < 2 ^ Z.of_nat fuel ->
    sqrt_loop fuel x ((x / y + y) / 2) y = Ok (Z.sqrt x).
Proof.
  induction fuel as [| fuel IH]; intros x y Hx Hy Hlo Hgap; cbn [sqrt_loop];
    destruct (Z.ltb_spec ((x / y + y) / 2) y) as [Hz | Hz].
  - exfalso. simpl in Hgap. assert (y = Z.sqrt x) by lia. subst y.
    pose proof (newton_above_root x (Z.sqrt x)). lia.
  - f_equal. apply newton_fixpoint; lia.
  - pose proof (newton_above_root x y ltac:(lia) Hy) as Hn.
    assert (Hsx : 0 < Z.sqrt x) by (apply Z.sqrt_pos; lia).
    set (z := (x / y + y) / 2) in *.
    rewrite bigdiv_pos by lia. cbn [bind].
    rewrite !Z.quot_div_nonneg; try lia.
    + apply IH; try lia.
      destruct (Z.eq_dec y (Z.sqrt x)) as [-> | Hne]; [lia |].
      pose proof (newton_halves_gap x y ltac:(lia) ltac:(lia)).
      fold z in H. rewrite Nat2Z.inj_succ, Z.pow_succ_r in Hgap by lia. lia.
    + pose proof (Z.quot_pos x z). lia.
  - f_equal. apply newton_fixpoint; lia.
Qed.

Lemma sqrt_spec (x : Z) : 0 <= x -> sqrt x = Ok (Z.sqrt x).
Proof.
  intros Hx. unfold sqrt.
  destruct (Z.eqb_spec x 0) as [-> | Hne]; [reflexivity |].
  assert (Hpos : 0 < x) by lia.
  replace ((x + 1) ÷ 2) with ((x / x + x) / 2).
  - apply sqrt_loop_spec; try lia.
    + apply Z.sqrt_le_lin; exact Hx.
    + rewrite Nat2Z.inj_succ, Z2Nat.id by apply Z.log2_nonneg.
      pose proof (Z.log2_spec x Hpos). pose proof (Z.sqrt_nonneg x). lia.
  - rewrite Z.div_same by lia. rewrite Z.quot_div_nonneg by lia.
    f_equal. lia.
Qed.

(** ** calculateShares *)

Lemma costAfter_total (isYes : bool) (qYes qNo b s : Z) :
  0 <= qYes -> 0 <= qNo -> 0 < b -> 0 <= s ->
  exists c, costAfter isYes qYes qNo b s = Ok c.
Proof.
  intros HY HN Hb Hs. unfold costAfter.
  destruct isYes.
  - destruct (getCost_total (qYes + s) qNo b) as (l & _ & _ & E); try lia; eauto.
  - destruct (getCost_total qYes (qNo + s) b) as (l & _ & _ & E); try lia; eauto.
Qed.

Lemma costAfter_mono (isYes : bool) (qYes qNo b s s' c c' : Z) :
  0 <= qYes -> 0 <= qNo -> 0 < b -> 0 <= s <= s' ->
  costAfter isYes qYes qNo b s = Ok c ->
  costAfter isYes qYes qNo b s' = Ok c' -> c <= c'.
Proof.
  intros HY HN Hb Hs. unfold costAfter.
  destruct isYes; apply getCost_mono; lia.
Qed.

Lemma costAfter_0 (isYes : bool) (qYes qNo b : Z) :
  costAfter isYes qYes qNo b 0 = getCost qYes qNo b.
Proof. unfold costAfter. destruct isYes; rewrite Z.add_0_r; reflexivity. Qed.

Lemma costAfter_sym (q b s : Z) : costAfter true q q b s = costAfter false q q b s.
Proof. unfold costAfter. apply getCost_sym. Qed.

Lemma search_loop_unfold (budget : nat) (isYes : bool) (qYes qNo b target low high : Z) :
  search_loop (S budget) isYes qYes qNo b target low high =
  if low <? high then
    newCost <- costAfter isYes qYes qNo b ((low + high) ÷ 2) ;;
    if newCost <? target
    then search_loop budget isYes qYes qNo b target ((low + high) ÷ 2 + 1) high
    else search_loop budget isYes qYes qNo b target low ((low + high) ÷ 2)
  else Ok low.
Proof. reflexivity. Qed.

Section Search.

Variables (isYes : bool) (qYes qNo b target : Z).
Hypothesis HqYes : 0 <= qYes.
Hypothesis HqNo : 0 <= qNo.
Hypothesis Hb : 0 < b.

Lemma search_loop_spec (budget : nat) :
  forall low high,
    0 <= low <= high -> all_below isYes qYes qNo b target low ->
    exists r,
      search_loop budget isYes qYes qNo b target low high = Ok r /\
      low <= r <= high /\ all_below isYes qYes qNo b target r /\
      (high - low < 2 ^ Z.of_nat budget ->
       r = high \/ exists c, costAfter isYes qYes qNo b r = Ok c /\ target <= c).
Proof.
  induction budget as [| budget IH]; intros low high Hlh Hbelow.
  - exists low. cbn [search_loop]. repeat split; try lia; auto.
  - rewrite search_loop_unfold.
    destruct (Z.ltb_spec low high) as [Hlt | Hge].
    + rewrite Z.quot_div_nonneg by lia.
      set (mid := (low + high) / 2).
      assert (Hmid : low <= mid < high).
      { unfold mid. split.
        - apply Z.div_le_lower_bound; lia.
        - apply Z.div_lt_upper_bound; lia. }
      assert (Hmid2 : 2 * mid <= low + high < 2 * mid + 2).
      { unfold mid. pose proof (Z.mul_div_le (low + high) 2 eq_refl).
        pose proof (Z.mul_succ_div_gt (low + high) 2 eq_refl). lia. }
      destruct (costAfter_total isYes qYes qNo b mid) as (cm & Em); try lia.
      rewrite Em. cbn [bind].
      destruct (Z.ltb_spec cm target) as [Hc | Hc].
      * destruct (IH (mid + 1) high) as (r & Er & Hr & Hall & Hconv); [lia | |].
        { intros s c Hs Es.
          pose proof (costAfter_mono isYes qYes qNo b s mid c cm
                        HqYes HqNo Hb ltac:(lia) Es Em). lia. }
        exists r. repeat split; try lia; auto.
        intros Hw. apply Hconv.
        rewrite Nat2Z.inj_succ, Z.pow_succ_r in Hw by lia. lia.
      * destruct (IH low mid) as (r & Er & Hr & Hall & Hconv); [lia | auto |].
        exists r. repeat split; try lia; auto.
        intros Hw. right.
        rewrite Nat2Z.inj_succ, Z.pow_succ_r in Hw by lia.
        destruct Hconv as [-> | Hex]; [lia | | exact Hex].
        exists cm. auto.
    + exists low. repeat split; try lia; auto.
Qed.

End Search.

Lemma search_loop_sym (budget : nat) (q b target : Z) :
  forall low high,
    search_loop budget true q q b target low high =
    search_loop budget false q q b target low high.
Proof.
  induction budget as [| budget IH]; intros low high; [reflexivity |].
  rewrite !search_loop_unfold, costAfter_sym.
  destruct (low <? high); [| reflexivity].
  destruct (costAfter false q q b _) as [c | |]; cbn [bind]; try reflexivity.
  destruct (c <? target); apply IH.
Qed.

Lemma calculateShares_shares_ok (payAmount : Z) (isYes : bool) (qYes qNo b : Z) :
  0 < payAmount -> 0 <= qYes -> 0 <= qNo -> 0 < b ->
  exists r, calculateShares payAmount isYes qYes qNo b = Ok r.
Proof.
  intros Hp HY HN Hb.
  destruct (getCost_total qYes qNo b HY HN Hb) as (l & _ & _ & E0).
  unfold calculateShares. rewrite E0. cbn [bind].
  destruct (search_loop_spec isYes qYes qNo b ((b * l) ÷ WAD + payAmount)
              HY HN Hb maxIterations 0 (payAmount * 10)) as (r & Er & _).
  - lia.
  - intros s c Hs. lia.
  - eauto.
Qed.

(** ** calculateB *)

Lemma calculateB_unfold (params : LMSRParams) (totalVolume txCount : Z) :
  0 < V0 params -> 0 <= totalVolume -> 0 <= txCount ->
  exists l,
    ln (WAD + txCount * WAD) = Ok l /\ 0 <= l /\
    calculateB params totalVolume txCount =
    Ok ((b0 params *
         (WAD + (alpha params * Z.sqrt ((totalVolume * WAD) ÷ V0 params)) ÷ WAD
              + (beta params * l) ÷ WAD)) ÷ WAD).
Proof.
  intros HV Hv Ht. pose proof WAD_pos as HW.
  destruct (ln_total (WAD + txCount * WAD)) as (l & L & Hl); [nia |].
  exists l. split; [exact L |]. split; [exact Hl |].
  unfold calculateB.
  destruct (Z.eqb_spec totalVolume 0) as [-> | Hv0]; cbn [andb].
  - destruct (Z.eqb_spec txCount 0) as [-> | Ht0].
    + vm_compute in L. injection L as <-.
      rewrite Z.mul_0_l, Z.quot_0_l by lia. change (Z.sqrt 0) with 0.
      rewrite !Z.mul_0_r. change (0 ÷ WAD) with 0. rewrite !Z.add_0_r.
      rewrite Z.quot_mul by lia. reflexivity.
    + rewrite bigdiv_pos by exact HV. cbn [bind].
      rewrite Z.mul_0_l, Z.quot_0_l by lia.
      change (sqrt 0) with (@Ok Z 0). cbn [bind]. rewrite L. reflexivity.
  - destruct (scaled_ratio totalVolume (V0 params)) as [E Hr]; try lia.
    rewrite E. cbn [bind]. rewrite sqrt_spec by exact Hr. cbn [bind].
    rewrite L. reflexivity.
Qed.

Lemma calculateB_mono (params : LMSRParams) (v v' t t' r r' : Z) :
  0 < b0 params -> 0 <= alpha params -> 0 <= beta params -> 0 < V0 params ->
  0 <= v <= v' -> 0 <= t <= t' ->
  calculateB params v t = Ok r -> calculateB params v' t' = Ok r' -> r <= r'.
Proof.
  intros Hb0 Ha Hbt HV Hv Ht. pose proof WAD_pos as HW.
  destruct (calculateB_unfold params v t) as (l & L & Hl & ->); try lia.
  destruct (calculateB_unfold params v' t') as (l' & L' & Hl' & ->); try lia.
  intros E E'. apply Ok_inj in E. apply Ok_inj in E'. subst r r'.
  assert (Hll : l <= l').
  { apply (ln_mono (WAD + t * WAD) (WAD + t' * WAD)); auto. nia. }
  assert (Hs : Z.sqrt ((v * WAD) ÷ V0 params) <= Z.sqrt ((v' * WAD) ÷ V0 params)).
  { apply Z.sqrt_le_mono. apply scaled_ratio_mono; lia. }
  pose proof (quot_mul_mono (alpha params) _ _ Ha Hs).
  pose proof (quot_mul_mono (beta params) _ _ Hbt Hll).
  apply quot_mul_mono; lia.
Qed.

(** ** The literals of the source, as JavaScript evaluates them *)

Lemma EXP_MAX_literal : Number (2 ^ 256 - 1) = Fin EXP_MAX.
Proof. vm_compute. reflexivity. Qed.

Lemma LN2_literal : Number 693147180559945309 = Fin LN2.
Proof. vm_compute. reflexivity. Qed.

Lemma Number_small (d : Z) : Z.abs d < 2 ^ 53 -> Number d = Fin d.
Proof.
  intros Hd. unfold Number, round_mag.
  destruct (Z.ltb_spec (Z.abs d) (2 ^ 53)) as [_ | H]; [| lia].
  destruct (Z.leb_spec (2 ^ 1024) (Z.abs d)) as [H | _]; [lia |].
  f_equal. lia.
Qed.

(** * Properties of the specification *)

(** C1: for every qYes >= 0, qNo >= 0 and b > 0, getPrice returns a pair
    (priceYes, priceNo) with |priceYes + priceNo - 10^18| < 10^15. *)
Theorem getPrice_sum_within_tolerance (qYes qNo b : Z) :
  0 <= qYes -> 0 <= qNo -> 0 < b ->
  exists priceYes priceNo,
    getPrice qYes qNo b = Ok (priceYes, priceNo) /\
    Z.abs (priceYes + priceNo - 10 ^ 18) < 10 ^ 15.
Proof.
  intros HY HN Hb.
  destruct (getPrice_sum qYes qNo b HY HN Hb) as (pY & pN & E & Hs).
  exists pY, pN. split; [exact E |]. unfold WAD in Hs. lia.
Qed.

Lemma getPrice_sum_within_tolerance_witness :
  exists priceYes priceNo,
    getPrice 150000000000000000000 50000000000000000000 100000000000000000000
      = Ok (priceYes, priceNo) /\
    Z.abs (priceYes + priceNo - 10 ^ 18) < 10 ^ 15.
Proof.
  apply (getPrice_sum_within_tolerance
           150000000000000000000 50000000000000000000 100000000000000000000); lia.
Defined.

(** C2, as stated, fails: with qYes = qNo = 0, b = 100 and payAmount = 10
    the search returns 41 shares, whose cost is 91 - 69 = 22 > 10. *)
Lemma calculateShares_overshoots :
  calculateShares 10 true 0 0 100 = Ok 41 /\
  getCost 0 0 100 = Ok 69 /\
  getCost 41 0 100 = Ok 91 /\
  ~ (exists r, calculateShares 10 true 0 0 100 = Ok r /\
               largest_affordable 10 true 0 0 100 r).
Proof.
  split; [vm_compute; reflexivity |].
  split; [vm_compute; reflexivity |].
  split; [vm_compute; reflexivity |].
  intros (r & Er & c0 & E0 & (cr & Ecr & Hle) & _).
  vm_compute in Er. apply Ok_inj in Er. subst r.
  vm_compute in E0. apply Ok_inj in E0. subst c0.
  vm_compute in Ecr. apply Ok_inj in Ecr. subst cr.
  lia.
Qed.

(** C2, amended: for payAmount > 0, qYes, qNo >= 0 and b > 0, calculateShares
    returns a quantity r in [0, 10 * payAmount] such that every quantity
    below r costs strictly less than payAmount; and when 10 * payAmount <
    2^50, so that the 50 iterations suffice, r is the least quantity whose
    cost reaches payAmount (it may exceed it), or the bound 10 * payAmount
    when no quantity of the range does. *)
Theorem calculateShares_least_reaching
    (payAmount : Z) (isYes : bool) (qYes qNo b : Z) :
  0 < payAmount -> 0 <= qYes -> 0 <= qNo -> 0 < b ->
  exists c0 r,
    getCost qYes qNo b = Ok c0 /\
    calculateShares payAmount isYes qYes qNo b = Ok r /\
    0 <= r <= payAmount * 10 /\
    (forall s, 0 <= s < r ->
       exists cs, costAfter isYes qYes qNo b s = Ok cs /\ cs - c0 < payAmount) /\
    (payAmount * 10 < 2 ^ 50 ->
       r = payAmount * 10 \/
       exists cr, costAfter isYes qYes qNo b r = Ok cr /\ payAmount <= cr - c0).
Proof.
  intros Hp HY HN Hb.
  destruct (getCost_total qYes qNo b HY HN Hb) as (l & _ & _ & E0).
  set (c0 := (b * l) ÷ WAD) in *.
  destruct (search_loop_spec isYes qYes qNo b (c0 + payAmount) HY HN Hb
              maxIterations 0 (payAmount * 10))
    as (r & Er & Hr & Hall & Hconv).
  { lia. }
  { intros s c Hs. lia. }
  exists c0, r. unfold calculateShares. rewrite E0. cbn [bind].
  repeat split; try lia; auto.
  - intros s Hs.
    destruct (costAfter_total isYes qYes qNo b s HY HN Hb ltac:(lia)) as (cs & Es).
    exists cs. split; [exact Es |]. specialize (Hall s cs Hs Es). lia.
  - intros Hsmall. destruct Hconv as [-> | (cr & Ecr & Hcr)].
    + change (Z.of_nat maxIterations) with 50. lia.
    + left. reflexivity.
    + right. exists cr. split; [exact Ecr | lia].
Qed.

Lemma calculateShares_least_reaching_witness :
  exists c0 r,
    getCost 0 0 100 = Ok c0 /\
    calculateShares 10 true 0 0 100 = Ok r /\
    0 <= r <= 10 * 10 /\
    (forall s, 0 <= s < r ->
       exists cs, costAfter true 0 0 100 s = Ok cs /\ cs - c0 < 10) /\
    (10 * 10 < 2 ^ 50 ->
       r = 10 * 10 \/
       exists cr, costAfter true 0 0 100 r = Ok cr /\ 10 <= cr - c0).
Proof.
  apply (calculateShares_least_reaching 10 true 0 0 100); lia.
Defined.

(** C3, as stated, fails: in the scenario the shares exceed the net amount. *)
Lemma previewTrade_scenario_shares_not_below_net :
  ~ (exists p,
       previewTrade (100 * 10 ^ 18) true (100 * 10 ^ 18) (100 * 10 ^ 18)
         (100 * 10 ^ 18) 50 = Ok p /\
       fee p = 5 * 10 ^ 17 /\
       netAmount p = 995 * 10 ^ 17 /\
       expectedShares p < netAmount p).
Proof.
  intros (p & E & _ & _ & H).
  vm_compute in E. apply Ok_inj in E. subst p.
  vm_compute in H. discriminate.
Qed.

(** C3, amended: for payAmount = 100 * 10^18, qYes = qNo = 100 * 10^18,
    b = 100 * 10^18 and feeRate = 50, previewTrade returns
    fee = 0.5 * 10^18, netAmount = 99.5 * 10^18 and
    expectedShares = 163994108616025791041, strictly more than netAmount. *)
Theorem previewTrade_scenario (isYes : bool) :
  exists p,
    previewTrade (100 * 10 ^ 18) isYes (100 * 10 ^ 18) (100 * 10 ^ 18)
      (100 * 10 ^ 18) 50 = Ok p /\
    fee p = 5 * 10 ^ 17 /\
    netAmount p = 995 * 10 ^ 17 /\
    expectedShares p = 163994108616025791041 /\
    netAmount p < expectedShares p.
Proof.
  destruct isYes; eexists; (split; [vm_compute; reflexivity |]);
    (split; [vm_compute; reflexivity |]);
    (split; [vm_compute; reflexivity |]);
    (split; vm_compute; reflexivity).
Qed.

(** C4: log2 adds 0.585 (scaled) when the halved remainder is >= 1.5 and
    0.322 (scaled) when it is >= 1.25.  The code adds 5 * 10^17 and
    32 * 10^16 instead: at x = 1.5 * 10^18 and x = 1.25 * 10^18 it returns
    0.5 * 10^18 and 0.32 * 10^18. *)
Theorem log2_fraction_constants :
  log2 (15 * 10 ^ 17) = Ok (5 * 10 ^ 17) /\
  log2 (125 * 10 ^ 16) = Ok (32 * 10 ^ 16) /\
  5 * 10 ^ 17 <> 585 * 10 ^ 15 /\
  32 * 10 ^ 16 <> 322 * 10 ^ 15.
Proof.
  split; [vm_compute; reflexivity |].
  split; [vm_compute; reflexivity |].
  split; discriminate.
Qed.

(** C5: with b > 0 fixed, getCost is non-decreasing in qYes and in qNo
    separately, the state qYes = qNo = 0 included. *)
Theorem getCost_monotone (b q q' other : Z) :
  0 < b -> 0 <= q <= q' -> 0 <= other ->
  (exists c c', getCost q other b = Ok c /\ getCost q' other b = Ok c' /\ c <= c') /\
  (exists c c', getCost other q b = Ok c /\ getCost other q' b = Ok c' /\ c <= c').
Proof.
  intros Hb Hq Ho. split.
  - destruct (getCost_total q other b) as (l & _ & _ & E); try lia.
    destruct (getCost_total q' other b) as (l' & _ & _ & E'); try lia.
    do 2 eexists. split; [exact E |]. split; [exact E' |].
    apply (getCost_mono q q' other other b); auto; lia.
  - destruct (getCost_total other q b) as (l & _ & _ & E); try lia.
    destruct (getCost_total other q' b) as (l' & _ & _ & E'); try lia.
    do 2 eexists. split; [exact E |]. split; [exact E' |].
    apply (getCost_mono other other q q' b); auto; lia.
Qed.

Lemma getCost_monotone_witness :
  (exists c c', getCost 0 7 100 = Ok c /\ getCost 60 7 100 = Ok c' /\ c <= c') /\
  (exists c c', getCost 7 0 100 = Ok c /\ getCost 7 60 100 = Ok c' /\ c <= c').
Proof.
  apply (getCost_monotone 100 0 60 7); lia.
Defined.

(** C6: calculateB is non-decreasing in totalVolume and in txCount
    separately, and returns b0 at totalVolume = txCount = 0. *)
Theorem calculateB_monotone (params : LMSRParams) (v v' t t' : Z) :
  0 < b0 params -> 0 <= alpha params -> 0 <= beta params -> 0 < V0 params ->
  0 <= v <= v' -> 0 <= t <= t' ->
  calculateB params 0 0 = Ok (b0 params) /\
  exists r rv rt,
    calculateB params v t = Ok r /\
    calculateB params v' t = Ok rv /\
    calculateB params v t' = Ok rt /\
    r <= rv /\ r <= rt.
Proof.
  intros Hb0 Ha Hbt HV Hv Ht. split; [reflexivity |].
  destruct (calculateB_unfold params v t) as (l1 & _ & _ & E1); try lia.
  destruct (calculateB_unfold params v' t) as (l2 & _ & _ & E2); try lia.
  destruct (calculateB_unfold params v t') as (l3 & _ & _ & E3); try lia.
  do 3 eexists.
  split; [exact E1 |]. split; [exact E2 |]. split; [exact E3 |]. split.
  - apply (calculateB_mono params v v' t t); auto; lia.
  - apply (calculateB_mono params v v t t'); auto; lia.
Qed.

Lemma calculateB_monotone_witness :
  calculateB DEFAULT_LMSR_PARAMS 0 0 = Ok (b0 DEFAULT_LMSR_PARAMS) /\
  exists r rv rt,
    calculateB DEFAULT_LMSR_PARAMS 0 0 = Ok r /\
    calculateB DEFAULT_LMSR_PARAMS (4 * 10 ^ 24) 0 = Ok rv /\
    calculateB DEFAULT_LMSR_PARAMS 0 10 = Ok rt /\
    r <= rv /\ r <= rt.
Proof.
  apply (calculateB_monotone DEFAULT_LMSR_PARAMS 0 (4 * 10 ^ 24) 0 10);
    vm_compute; first [reflexivity | discriminate | split; discriminate].
Defined.

(** C7: for payAmount > 0, q >= 0 and b > 0, buying YES and buying NO at
    qYes = qNo = q give the same number of shares. *)
Theorem calculateShares_symmetric (payAmount q b : Z) :
  0 < payAmount -> 0 <= q -> 0 < b ->
  exists r,
    calculateShares payAmount true q q b = Ok r /\
    calculateShares payAmount false q q b = Ok r.
Proof.
  intros Hp Hq Hb.
  destruct (calculateShares_shares_ok payAmount true q q b Hp Hq Hq Hb) as (r & Er).
  exists r. split; [exact Er |]. rewrite <- Er.
  unfold calculateShares. destruct (getCost q q b) as [c | e |]; cbn [bind].
  - symmetry. apply search_loop_sym.
  - reflexivity.
  - reflexivity.
Qed.

Lemma calculateShares_symmetric_witness :
  exists r,
    calculateShares 10 true 30 30 100 = Ok r /\
    calculateShares 10 false 30 30 100 = Ok r.
Proof.
  apply (calculateShares_symmetric 10 30 100); lia.
Defined.

(** C8: ln throws exactly when x <= 0, returns a value for every x > 0, and
    returns 0 at x = 10^18. *)
Theorem ln_domain (x : Z) :
  (ln x = Throw LnDomain <-> x <= 0) /\
  (0 < x -> exists v, ln x = Ok v) /\
  ln (10 ^ 18) = Ok 0.
Proof.
  split; [| split].
  - split.
    + intros E. destruct (Z.le_gt_cases x 0) as [H | H]; [exact H |].
      destruct (ln_total x) as (v & Ev & _); [lia |]. congruence.
    + intros H. unfold ln. destruct (Z.leb_spec x 0); [reflexivity | lia].
  - intros H. destruct (ln_total x H) as (v & Ev & _). eauto.
  - reflexivity.
Qed.

Lemma ln_domain_witness :
  ln (-3) = Throw LnDomain /\ exists v, ln (3 * 10 ^ 18) = Ok v.
Proof.
  split.
  - apply (proj1 (ln_domain (-3))). lia.
  - apply (proj1 (proj2 (ln_domain (3 * 10 ^ 18)))). lia.
Defined.

(** C9: for qYes, qNo >= 0 and b > 0 the arguments of expApprox are
    non-negative, its results are at least 10^18, the sum of the two is at
    least 2 * 10^18 (so the zero-sum test of getPrice is false), and both
    getPrice and getCost return a value. *)
Theorem valid_state_never_raises (qYes qNo b : Z) :
  0 <= qYes -> 0 <= qNo -> 0 < b ->
  bigdiv (qYes * WAD) b = Ok ((qYes * WAD) ÷ b) /\
  bigdiv (qNo * WAD) b = Ok ((qNo * WAD) ÷ b) /\
  0 <= (qYes * WAD) ÷ b /\ 0 <= (qNo * WAD) ÷ b /\
  10 ^ 18 <= expApprox ((qYes * WAD) ÷ b) /\
  10 ^ 18 <= expApprox ((qNo * WAD) ÷ b) /\
  2 * 10 ^ 18 <= expApprox ((qYes * WAD) ÷ b) + expApprox ((qNo * WAD) ÷ b) /\
  (expApprox ((qYes * WAD) ÷ b) + expApprox ((qNo * WAD) ÷ b) =? 0) = false /\
  (exists p, getPrice qYes qNo b = Ok p) /\
  (exists c, getCost qYes qNo b = Ok c).
Proof.
  intros HY HN Hb.
  destruct (scaled_ratio qYes b HY Hb) as [EY HxY].
  destruct (scaled_ratio qNo b HN Hb) as [EN HxN].
  pose proof (expApprox_ge_WAD _ HxY) as HeY.
  pose proof (expApprox_ge_WAD _ HxN) as HeN.
  assert (HW : WAD = 10 ^ 18) by reflexivity.
  split; [exact EY |]. split; [exact EN |].
  split; [exact HxY |]. split; [exact HxN |].
  split; [lia |]. split; [lia |]. split; [lia |].
  split; [apply Z.eqb_neq; lia |]. split.
  - destruct (getPrice_sum qYes qNo b HY HN Hb) as (pY & pN & E & _). eauto.
  - destruct (getCost_total qYes qNo b HY HN Hb) as (l & _ & _ & E). eauto.
Qed.

Lemma valid_state_never_raises_witness :
  (exists p, getPrice 250 0 100 = Ok p) /\ (exists c, getCost 250 0 100 = Ok c).
Proof.
  pose proof (valid_state_never_raises 250 0 100
                ltac:(lia) ltac:(lia) ltac:(lia)) as H.
  split; apply H.
Defined.

(** C10: validateState returns true for every qYes >= 0, qNo >= 0 and
    b > 0, and false otherwise: it decides exactly that predicate. *)
Theorem validateState_exact (qYes qNo b : Z) :
  validateState qYes qNo b = Ok ((0 <=? qYes) && (0 <=? qNo) && (0 <? b)) /\
  (validateState qYes qNo b = Ok true <-> 0 <= qYes /\ 0 <= qNo /\ 0 < b).
Proof.
  assert (E : validateState qYes qNo b
              = Ok ((0 <=? qYes) && (0 <=? qNo) && (0 <? b))).
  { unfold validateState.
    destruct (Z.ltb_spec qYes 0) as [HY | HY]; cbn [orb].
    { destruct (Z.leb_spec 0 qYes); [lia | reflexivity]. }
    destruct (Z.ltb_spec qNo 0) as [HN | HN]; cbn [orb].
    { destruct (Z.leb_spec 0 qNo); [lia |]. rewrite andb_false_r. reflexivity. }
    destruct (Z.leb_spec b 0) as [Hb | Hb].
    { destruct (Z.ltb_spec 0 b); [lia |]. rewrite andb_false_r. reflexivity. }
    destruct (Z.leb_spec 0 qYes); [| lia].
    destruct (Z.leb_spec 0 qNo); [| lia].
    destruct (Z.ltb_spec 0 b); [| lia]. cbn [andb].
    destruct (getPrice_sum qYes qNo b HY HN Hb) as (pY & pN & -> & Hs).
    cbn [bind]. f_equal. unfold WAD in *.
    rewrite Number_small by lia.
    cbn [Math_abs]. change (Number (10 ^ 15)) with (Fin (10 ^ 15)).
    cbn [number_lt]. apply Z.ltb_lt. lia. }
  split; [exact E |]. rewrite E. split.
  - intros H. apply Ok_inj in H.
    apply andb_prop in H as [H Hb]. apply andb_prop in H as [HY HN]. lia.
  - intros (HY & HN & Hb). f_equal.
    apply andb_true_intro. split; [apply andb_true_intro; split |]; lia.
Qed.

Lemma validateState_exact_witness : validateState 5 7 100 = Ok true.
Proof.
  apply (proj2 (proj2 (validateState_exact 5 7 100))). lia.
Defined.

(** * Further properties of the pricing engine *)

(** ** Helpers *)

Lemma div_cross_le (p q p' q' : Z) :
  0 < q -> 0 < q' -> p * q' <= p' * q -> p / q <= p' / q'.
Proof.
  intros Hq Hq' H.
  apply Z.div_le_lower_bound; [exact Hq' |].
  pose proof (Z.mul_div_le p q Hq) as Hd.
  apply (Z.mul_le_mono_pos_l _ _ q Hq). nia.
Qed.

(** The zero-quantity shortcut of [getPrice] agrees with its general path. *)
Lemma getPrice_general (qYes qNo b : Z) :
  0 <= qYes -> 0 <= qNo -> 0 < b ->
  getPrice qYes qNo b =
  Ok ((expApprox ((qYes * WAD) ÷ b) * WAD) / expSum qYes qNo b,
      (expApprox ((qNo * WAD) ÷ b) * WAD) / expSum qYes qNo b).
Proof.
  intros HY HN Hb. rewrite getPrice_unfold by assumption.
  pose proof (expSum_ge qYes qNo b HY HN Hb) as Hs.
  pose proof (expApprox_ge_WAD _ (proj2 (scaled_ratio qYes b HY Hb))) as HeY.
  pose proof (expApprox_ge_WAD _ (proj2 (scaled_ratio qNo b HN Hb))) as HeN.
  pose proof WAD_pos as HW.
  destruct (Z.eqb_spec qYes 0) as [-> | H1]; cbn [andb].
  - destruct (Z.eqb_spec qNo 0) as [-> | H2].
    + unfold expSum. rewrite Z.mul_0_l, Z.quot_0_l by lia. reflexivity.
    + rewrite !Z.quot_div_nonneg; try nia. reflexivity.
  - rewrite !Z.quot_div_nonneg; try nia. reflexivity.
Qed.

Lemma search_loop_empty_range (budget : nat) (isYes : bool)
    (qYes qNo b target low high : Z) :
  high <= low -> search_loop budget isYes qYes qNo b target low high = Ok low.
Proof.
  intros H. destruct budget as [| budget]; [reflexivity |].
  rewrite search_loop_unfold.
  destruct (Z.ltb_spec low high); [lia | reflexivity].
Qed.

Lemma calculateShares_range (payAmount : Z) (isYes : bool) (qYes qNo b : Z) :
  0 <= qYes -> 0 <= qNo -> 0 < b ->
  exists r,
    calculateShares payAmount isYes qYes qNo b = Ok r /\
    0 <= r <= Z.max 0 (payAmount * 10).
Proof.
  intros HY HN Hb.
  destruct (getCost_total qYes qNo b HY HN Hb) as (l & _ & _ & E0).
  unfold calculateShares. rewrite E0. cbn [bind].
  destruct (Z.le_gt_cases (payAmount * 10) 0) as [Hp | Hp].
  - rewrite search_loop_empty_range by exact Hp. exists 0. split; [reflexivity | lia].
  - destruct (search_loop_spec isYes qYes qNo b ((b * l) ÷ WAD + payAmount)
                HY HN Hb maxIterations 0 (payAmount * 10)) as (r & Er & Hr & _).
    + lia.
    + intros s c Hs. lia.
    + exists r. split; [exact Er | lia].
Qed.

(** ** expApprox *)

(** X1: on non-negative arguments expApprox is non-decreasing, never
    exceeds its saturation value 2^256, and below the saturation
    threshold 42 * 10^18 it is at least 10^18 + x. *)
Theorem expApprox_monotone_bounded (x x' : Z) :
  0 <= x <= x' ->
  expApprox x <= expApprox x' /\
  expApprox x' <= 2 ^ 256 /\
  (x < 42 * 10 ^ 18 -> 10 ^ 18 + x <= expApprox x) /\
  (42 * 10 ^ 18 <= x -> expApprox x = 2 ^ 256).
Proof.
  intros Hx. assert (HW : WAD = 10 ^ 18) by reflexivity.
  split; [apply expApprox_mono; exact Hx |].
  split; [| split].
  - rewrite expApprox_unfold.
    destruct (Z.eqb_spec x' 0); [vm_compute; discriminate |].
    destruct (Z.leb_spec (42 * WAD) x'); [apply Z.le_refl |].
    apply taylor5_below_max. lia.
  - intros Hlt. rewrite expApprox_unfold.
    destruct (Z.eqb_spec x 0); [lia |].
    destruct (Z.leb_spec (42 * WAD) x); [lia |].
    pose proof (taylor5_mono x x). lia.
  - intros Hge. rewrite expApprox_unfold.
    destruct (Z.eqb_spec x 0); [lia |].
    destruct (Z.leb_spec (42 * WAD) x); [reflexivity | lia].
Qed.

Lemma expApprox_monotone_bounded_witness :
  expApprox (10 ^ 18) <= expApprox (50 * 10 ^ 18) /\
  expApprox (50 * 10 ^ 18) <= 2 ^ 256 /\
  (10 ^ 18 < 42 * 10 ^ 18 -> 10 ^ 18 + 10 ^ 18 <= expApprox (10 ^ 18)) /\
  (42 * 10 ^ 18 <= 10 ^ 18 -> expApprox (10 ^ 18) = 2 ^ 256).
Proof.
  apply (expApprox_monotone_bounded (10 ^ 18) (50 * 10 ^ 18)). lia.
Defined.

(** ** sqrt *)

(** X2: for x >= 0 the Babylonian loop of sqrt ends and returns the integer
    square root r, with r * r <= x < (r + 1) * (r + 1). *)
Theorem sqrt_floor_root (x : Z) :
  0 <= x ->
  exists r, sqrt x = Ok r /\ 0 <= r /\ r * r <= x < (r + 1) * (r + 1).
Proof.
  intros Hx. exists (Z.sqrt x). split; [apply sqrt_spec; exact Hx |].
  split; [apply Z.sqrt_nonneg |].
  pose proof (Z.sqrt_spec x Hx) as H. unfold Z.succ in H. exact H.
Qed.

Lemma sqrt_floor_root_witness :
  exists r, sqrt (10 ^ 18) = Ok r /\ 0 <= r /\ r * r <= 10 ^ 18 < (r + 1) * (r + 1).
Proof.
  apply (sqrt_floor_root (10 ^ 18)). lia.
Defined.

(** ** log2 and ln *)

Lemma log2_loop_halvings (fuel : nat) :
  forall y result yf rf,
    0 <= y ->
    log2_loop fuel y result = Ok (yf, rf) ->
    exists k, 0 <= k /\ yf = y / 2 ^ k /\ rf = result + k * WAD /\
              yf < 2 * WAD /\ (0 < k -> WAD <= yf).
Proof.
  induction fuel as [| fuel IH]; intros y result yf rf Hy; cbn [log2_loop];
    destruct (Z.leb_spec (2 * WAD) y) as [H | H]; intros E; try discriminate.
  - injection E as <- <-. exists 0. rewrite Z.pow_0_r, Z.div_1_r. lia.
  - rewrite Z.quot_div_nonneg in E by lia.
    assert (Hh : WAD <= y / 2).
    { apply Z.div_le_lower_bound; lia. }
    pose proof WAD_pos as HW.
    apply IH in E; [| lia].
    destruct E as (k & Hk & -> & -> & Hlt & Hlow).
    exists (k + 1). split; [lia |]. split.
    + rewrite Z.div_div by (try lia; apply Z.pow_pos_nonneg; lia).
      f_equal. rewrite Z.pow_add_r by lia. lia.
    + split; [lia |]. split; [exact Hlt |]. intros _.
      destruct (Z.eq_dec k 0) as [-> | Hne].
      * rewrite Z.pow_0_r, Z.div_1_r. exact Hh.
      * apply Hlow. lia.
  - injection E as <- <-. exists 0. rewrite Z.pow_0_r, Z.div_1_r. lia.
Qed.

Lemma log2_inv (x v : Z) :
  0 < x -> log2 x = Ok v ->
  exists yf rf,
    log2_loop (Z.to_nat (Z.log2 x)) x 0 = Ok (yf, rf) /\ v = rf + log2_frac yf.
Proof.
  intros Hx. unfold log2.
  destruct (Z.leb_spec x 0); [lia |].
  destruct (log2_loop _ x 0) as [[yf rf] | |]; cbn [bind]; try discriminate.
  intros E. apply Ok_inj in E. eauto.
Qed.

(** X3: for x > 0, log2 returns k * 10^18 plus the fraction bucket of
    x / 2^k, where k is the number of halvings: x / 2^k < 2 * 10^18, and
    10^18 <= x / 2^k when k > 0.  The result lies between k * 10^18 and
    k * 10^18 + 5 * 10^17. *)
Theorem log2_integer_part (x : Z) :
  0 < x ->
  exists k v,
    log2 x = Ok v /\ 0 <= k /\
    v = k * 10 ^ 18 + log2_frac (x / 2 ^ k) /\
    x / 2 ^ k < 2 * 10 ^ 18 /\
    (0 < k -> 10 ^ 18 <= x / 2 ^ k) /\
    k * 10 ^ 18 <= v <= k * 10 ^ 18 + 5 * 10 ^ 17.
Proof.
  intros Hx. assert (HW : WAD = 10 ^ 18) by reflexivity.
  destruct (log2_total x Hx) as (v & Ev & _).
  destruct (log2_inv x v Hx Ev) as (yf & rf & El & Hv).
  apply log2_loop_halvings in El; [| lia].
  destruct El as (k & Hk & -> & -> & Hlt & Hlow).
  exists k, v. pose proof (log2_frac_bounds (x / 2 ^ k)).
  split; [exact Ev |]. split; [exact Hk |].
  split; [lia |]. split; [lia |]. split; lia.
Qed.

Lemma log2_integer_part_witness :
  exists k v,
    log2 (7 * 10 ^ 18) = Ok v /\ 0 <= k /\
    v = k * 10 ^ 18 + log2_frac (7 * 10 ^ 18 / 2 ^ k) /\
    7 * 10 ^ 18 / 2 ^ k < 2 * 10 ^ 18 /\
    (0 < k -> 10 ^ 18 <= 7 * 10 ^ 18 / 2 ^ k) /\
    k * 10 ^ 18 <= v <= k * 10 ^ 18 + 5 * 10 ^ 17.
Proof.
  apply (log2_integer_part (7 * 10 ^ 18)). lia.
Defined.

(** X4: ln is non-decreasing on positive arguments and never negative; it
    returns 0 for every 0 < x < 1.25 * 10^18, values below 10^18 included. *)
Theorem ln_monotone_nonneg (x x' : Z) :
  0 < x <= x' ->
  exists v v',
    ln x = Ok v /\ ln x' = Ok v' /\ 0 <= v <= v' /\
    (x < 125 * 10 ^ 16 -> v = 0).
Proof.
  intros Hx.
  destruct (ln_total x) as (v & E & Hv); [lia |].
  destruct (ln_total x') as (v' & E' & Hv'); [lia |].
  exists v, v'. split; [exact E |]. split; [exact E' |].
  pose proof (ln_mono x x' v v' Hx E E'). split; [lia |].
  intros Hsmall. unfold ln in E.
  destruct (Z.leb_spec x 0); [lia |].
  destruct (Z.eqb_spec x WAD); [apply Ok_inj in E; lia |].
  assert (L : log2 x = Ok 0).
  { unfold log2. destruct (Z.leb_spec x 0); [lia |].
    assert (El : forall f, log2_loop f x 0 = Ok (x, 0)).
    { intros f. destruct f; cbn [log2_loop];
        destruct (Z.leb_spec (2 * WAD) x); try reflexivity; unfold WAD in *; lia. }
    rewrite El. cbn. unfold log2_frac.
    destruct (Z.leb_spec (15 * 10 ^ 17) x); [lia |].
    destruct (Z.leb_spec (125 * 10 ^ 16) x); [lia | reflexivity]. }
  rewrite L in E. cbn in E. apply Ok_inj in E. lia.
Qed.

Lemma ln_monotone_nonneg_witness :
  exists v v',
    ln (5 * 10 ^ 17) = Ok v /\ ln (3 * 10 ^ 18) = Ok v' /\ 0 <= v <= v' /\
    (5 * 10 ^ 17 < 125 * 10 ^ 16 -> v = 0).
Proof.
  apply (ln_monotone_nonneg (5 * 10 ^ 17) (3 * 10 ^ 18)). lia.
Defined.

(** ** getPrice and getCost *)

Lemma share_of_sum_mono (a a' n : Z) :
  0 < a <= a' -> 0 < n ->
  (a * WAD) / (a + n) <= (a' * WAD) / (a' + n) /\
  (n * WAD) / (a' + n) <= (n * WAD) / (a + n).
Proof.
  intros Ha Hn. pose proof WAD_pos as HW. split.
  - apply div_cross_le; nia.
  - apply Z.div_le_compat_l; nia.
Qed.

Lemma share_of_sum_bounds (a n : Z) :
  0 < a -> 0 < n -> 0 <= (a * WAD) / (a + n) <= WAD.
Proof.
  intros Ha Hn. pose proof WAD_pos as HW. split.
  - apply Z.div_pos; nia.
  - apply Z.div_le_upper_bound; nia.
Qed.

Lemma expApprox_arg_pos (q b : Z) :
  0 <= q -> 0 < b -> 0 < expApprox ((q * WAD) ÷ b).
Proof.
  intros Hq Hb.
  pose proof (expApprox_ge_WAD _ (proj2 (scaled_ratio q b Hq Hb))).
  pose proof WAD_pos. lia.
Qed.

Lemma expApprox_arg_mono (q q' b : Z) :
  0 <= q <= q' -> 0 < b ->
  expApprox ((q * WAD) ÷ b) <= expApprox ((q' * WAD) ÷ b).
Proof.
  intros Hq Hb. apply expApprox_mono. split.
  - apply scaled_ratio; lia.
  - apply scaled_ratio_mono; lia.
Qed.

(** X5: for qYes, qNo >= 0 and b > 0 both prices returned by getPrice lie
    in [0, 10^18], and swapping the two quantities swaps the two prices. *)
Theorem getPrice_bounds_and_swap (qYes qNo b : Z) :
  0 <= qYes -> 0 <= qNo -> 0 < b ->
  exists pYes pNo,
    getPrice qYes qNo b = Ok (pYes, pNo) /\
    getPrice qNo qYes b = Ok (pNo, pYes) /\
    0 <= pYes <= 10 ^ 18 /\ 0 <= pNo <= 10 ^ 18.
Proof.
  intros HY HN Hb.
  rewrite (getPrice_general qYes qNo b), (getPrice_general qNo qYes b) by assumption.
  do 2 eexists. split; [reflexivity |].
  pose proof (expApprox_arg_pos qYes b HY Hb) as HeY.
  pose proof (expApprox_arg_pos qNo b HN Hb) as HeN.
  split.
  - unfold expSum.
    rewrite (Z.add_comm (expApprox ((qNo * WAD) ÷ b))). reflexivity.
  - unfold expSum. change (10 ^ 18) with WAD. split.
    + apply share_of_sum_bounds; assumption.
    + rewrite (Z.add_comm (expApprox ((qYes * WAD) ÷ b))).
      apply share_of_sum_bounds; assumption.
Qed.

Lemma getPrice_bounds_and_swap_witness :
  exists pYes pNo,
    getPrice 300 100 100 = Ok (pYes, pNo) /\
    getPrice 100 300 100 = Ok (pNo, pYes) /\
    0 <= pYes <= 10 ^ 18 /\ 0 <= pNo <= 10 ^ 18.
Proof.
  apply (getPrice_bounds_and_swap 300 100 100); lia.
Defined.

(** X6: with qNo and b fixed, raising qYes never lowers the YES price and
    never raises the NO price (and symmetrically for qNo, by X5). *)
Theorem getPrice_monotone (qYes qYes' qNo b : Z) :
  0 <= qYes <= qYes' -> 0 <= qNo -> 0 < b ->
  exists pYes pNo pYes' pNo',
    getPrice qYes qNo b = Ok (pYes, pNo) /\
    getPrice qYes' qNo b = Ok (pYes', pNo') /\
    pYes <= pYes' /\ pNo' <= pNo.
Proof.
  intros HY HN Hb.
  rewrite (getPrice_general qYes qNo b), (getPrice_general qYes' qNo b) by lia.
  do 4 eexists. split; [reflexivity |]. split; [reflexivity |].
  unfold expSum. apply share_of_sum_mono.
  - split; [apply expApprox_arg_pos; lia | apply expApprox_arg_mono; lia].
  - apply expApprox_arg_pos; lia.
Qed.

Lemma getPrice_monotone_witness :
  exists pYes pNo pYes' pNo',
    getPrice 100 100 100 = Ok (pYes, pNo) /\
    getPrice 250 100 100 = Ok (pYes', pNo') /\
    pYes <= pYes' /\ pNo' <= pNo.
Proof.
  apply (getPrice_monotone 100 250 100 100); lia.
Defined.

Lemma ln_two : ln (2 * WAD) = Ok LN2.
Proof. vm_compute. reflexivity. Qed.

Lemma getCost_empty (b : Z) : getCost 0 0 b = Ok ((b * LN2) ÷ 10 ^ 18).
Proof. unfold getCost. cbn [Z.eqb andb]. rewrite ln_two. reflexivity. Qed.

(** X7: getCost is symmetric in the two quantities for every input, and an
    empty market costs b * LN2 / 10^18, where LN2 is the engine's ln(2)
    constant, whatever b is. *)
Theorem getCost_symmetric_and_empty (qYes qNo b : Z) :
  getCost qYes qNo b = getCost qNo qYes b /\
  getCost 0 0 b = Ok ((b * LN2) ÷ 10 ^ 18).
Proof.
  split; [apply getCost_sym | apply getCost_empty].
Qed.

(** X8: the cost of any valid state is at least the cost of the empty
    market, so the cost difference used by calculateShares is never
    negative. *)
Theorem getCost_at_least_empty (qYes qNo b : Z) :
  0 <= qYes -> 0 <= qNo -> 0 < b ->
  exists c, getCost qYes qNo b = Ok c /\ (b * LN2) ÷ 10 ^ 18 <= c.
Proof.
  intros HY HN Hb.
  destruct (getCost_total qYes qNo b HY HN Hb) as (l & _ & _ & E).
  eexists. split; [exact E |].
  exact (getCost_mono 0 qYes 0 qNo b _ _ ltac:(lia) ltac:(lia) Hb
           (getCost_empty b) E).
Qed.

Lemma getCost_at_least_empty_witness :
  exists c, getCost 40 70 100 = Ok c /\ (100 * LN2) ÷ 10 ^ 18 <= c.
Proof.
  apply (getCost_at_least_empty 40 70 100); lia.
Defined.

(** X9: with b = 0 and a non-empty market getPrice, getCost and
    calculateShares all throw the division error, while validateState
    returns false without throwing; the empty market is priced at
    (0.5, 0.5) for every b, zero included. *)
Theorem zero_liquidity_behaviour (payAmount : Z) (isYes : bool) (qYes qNo : Z) :
  (qYes =? 0) && (qNo =? 0) = false ->
  getPrice qYes qNo 0 = Throw DivByZero /\
  getCost qYes qNo 0 = Throw DivByZero /\
  calculateShares payAmount isYes qYes qNo 0 = Throw DivByZero /\
  validateState qYes qNo 0 = Ok false /\
  (forall b, getPrice 0 0 b = Ok (5 * 10 ^ 17, 5 * 10 ^ 17)).
Proof.
  intros Hne.
  assert (EP : getPrice qYes qNo 0 = Throw DivByZero).
  { unfold getPrice. rewrite Hne. reflexivity. }
  assert (EC : getCost qYes qNo 0 = Throw DivByZero).
  { unfold getCost. rewrite Hne. reflexivity. }
  split; [exact EP |]. split; [exact EC |]. split; [| split].
  - unfold calculateShares. rewrite EC. reflexivity.
  - unfold validateState. cbn [Z.leb Z.compare].
    rewrite orb_true_r. reflexivity.
  - intros b. reflexivity.
Qed.

Lemma zero_liquidity_behaviour_witness :
  getPrice 5 0 0 = Throw DivByZero /\
  getCost 5 0 0 = Throw DivByZero /\
  calculateShares 10 true 5 0 0 = Throw DivByZero /\
  validateState 5 0 0 = Ok false /\
  (forall b, getPrice 0 0 b = Ok (5 * 10 ^ 17, 5 * 10 ^ 17)).
Proof.
  apply (zero_liquidity_behaviour 10 true 5 0). reflexivity.
Defined.

(** ** calculateShares and previewTrade *)

(** X10: on a valid market a payment that is zero or negative buys
    nothing: calculateShares returns 0 without running the search. *)
Theorem calculateShares_nonpositive_payment
    (payAmount : Z) (isYes : bool) (qYes qNo b : Z) :
  0 <= qYes -> 0 <= qNo -> 0 < b -> payAmount <= 0 ->
  calculateShares payAmount isYes qYes qNo b = Ok 0.
Proof.
  intros HY HN Hb Hp.
  destruct (getCost_total qYes qNo b HY HN Hb) as (l & _ & _ & E0).
  unfold calculateShares. rewrite E0. cbn [bind].
  apply search_loop_empty_range. lia.
Qed.

Lemma calculateShares_nonpositive_payment_witness :
  calculateShares (-7) false 30 40 100 = Ok 0.
Proof.
  apply (calculateShares_nonpositive_payment (-7) false 30 40 100); lia.
Defined.

(** The prices before and after [r >= 0] shares of one outcome are bought. *)
Lemma price_after_buy (isYes : bool) (qYes qNo b r cY cN nY nN : Z) :
  0 <= qYes -> 0 <= qNo -> 0 < b -> 0 <= r ->
  getPrice qYes qNo b = Ok (cY, cN) ->
  getPrice (if isYes then qYes + r else qYes)
           (if isYes then qNo else qNo + r) b = Ok (nY, nN) ->
  let cur := if isYes then cY else cN in
  let new := if isYes then nY else nN in
  0 <= cur <= new /\ new <= WAD.
Proof.
  intros HY HN Hb Hr Ec En.
  rewrite getPrice_general in Ec by assumption.
  rewrite getPrice_general in En by (destruct isYes; lia).
  apply Ok_inj, pair_equal_spec in Ec. destruct Ec as [<- <-].
  apply Ok_inj, pair_equal_spec in En. destruct En as [<- <-].
  pose proof (expApprox_arg_pos qYes b HY Hb) as HeY.
  pose proof (expApprox_arg_pos qNo b HN Hb) as HeN.
  destruct isYes; cbv zeta; unfold expSum.
  - pose proof (expApprox_arg_mono qYes (qYes + r) b ltac:(lia) Hb) as Hm.
    pose proof (share_of_sum_mono _ _ (expApprox ((qNo * WAD) ÷ b))
                  (conj HeY Hm) HeN) as [H1 _].
    pose proof (share_of_sum_bounds _ (expApprox ((qNo * WAD) ÷ b)) HeY HeN).
    pose proof (share_of_sum_bounds (expApprox (((qYes + r) * WAD) ÷ b))
                  (expApprox ((qNo * WAD) ÷ b)) ltac:(lia) HeN).
    lia.
  - pose proof (expApprox_arg_mono qNo (qNo + r) b ltac:(lia) Hb) as Hm.
    rewrite !(Z.add_comm (expApprox ((qYes * WAD) ÷ b))).
    pose proof (share_of_sum_mono _ _ (expApprox ((qYes * WAD) ÷ b))
                  (conj HeN Hm) HeY) as [H1 _].
    pose proof (share_of_sum_bounds _ (expApprox ((qYes * WAD) ÷ b)) HeN HeY).
    pose proof (share_of_sum_bounds (expApprox (((qNo + r) * WAD) ÷ b))
                  (expApprox ((qYes * WAD) ÷ b)) ltac:(lia) HeY).
    lia.
Qed.

(** What [previewTrade] returns on a valid market, field by field. *)
Lemma previewTrade_inv (payAmount : Z) (isYes : bool) (qYes qNo b feeRate : Z) :
  0 <= qYes -> 0 <= qNo -> 0 < b ->
  let f := (payAmount * feeRate) ÷ 10000 in
  let net := payAmount - f in
  exists r cY cN nY nN,
    calculateShares net isYes qYes qNo b = Ok r /\
    0 <= r <= Z.max 0 (net * 10) /\
    getPrice qYes qNo b = Ok (cY, cN) /\
    getPrice (if isYes then qYes + r else qYes)
             (if isYes then qNo else qNo + r) b = Ok (nY, nN) /\
    previewTrade payAmount isYes qYes qNo b feeRate =
    Ok {| expectedShares := r;
          newPrice := if isYes then nY else nN;
          priceImpact :=
            if 0 <? (if isYes then cY else cN)
            then (((if isYes then nY else nN) - (if isYes then cY else cN)) * WAD)
                   ÷ (if isYes then cY else cN)
            else 0;
          avgPrice := if 0 <? r then (net * WAD) ÷ r else 0;
          fee := f;
          netAmount := net |}.
Proof.
  intros HY HN Hb f net.
  destruct (calculateShares_range net isYes qYes qNo b HY HN Hb) as (r & Er & Hr).
  destruct (getPrice_sum qYes qNo b HY HN Hb) as (cY & cN & Ec & _).
  destruct (getPrice_sum (if isYes then qYes + r else qYes)
              (if isYes then qNo else qNo + r) b) as (nY & nN & En & _);
    try (destruct isYes; lia).
  exists r, cY, cN, nY, nN.
  split; [exact Er |]. split; [exact Hr |]. split; [exact Ec |]. split; [exact En |].
  unfold previewTrade. rewrite bigdiv_pos by lia. cbn [bind].
  fold f. fold net. rewrite Er. cbn [bind]. rewrite En. cbn [bind].
  rewrite Ec. cbn [bind].
  destruct (Z.ltb_spec 0 (if isYes then cY else cN)) as [Hc | Hc].
  - rewrite bigdiv_pos by exact Hc. cbn [bind].
    destruct (Z.ltb_spec 0 r) as [Hs | Hs].
    + rewrite bigdiv_pos by exact Hs. reflexivity.
    + reflexivity.
  - cbn [bind]. destruct (Z.ltb_spec 0 r) as [Hs | Hs].
    + rewrite bigdiv_pos by exact Hs. reflexivity.
    + reflexivity.
Qed.

(** X11: on a valid market previewTrade returns a preview whose fee is
    payAmount * feeRate / 10000 (truncated) and whose fee and netAmount add
    up to payAmount; for 0 <= payAmount and 0 <= feeRate <= 10000 the fee
    lies between 0 and payAmount. *)
Theorem previewTrade_fee_split (payAmount : Z) (isYes : bool)
    (qYes qNo b feeRate : Z) :
  0 <= qYes -> 0 <= qNo -> 0 < b ->
  exists p,
    previewTrade payAmount isYes qYes qNo b feeRate = Ok p /\
    fee p = (payAmount * feeRate) ÷ 10000 /\
    fee p + netAmount p = payAmount /\
    (0 <= payAmount -> 0 <= feeRate <= 10000 -> 0 <= fee p <= payAmount).
Proof.
  intros HY HN Hb.
  destruct (previewTrade_inv payAmount isYes qYes qNo b feeRate HY HN Hb)
    as (r & cY & cN & nY & nN & _ & _ & _ & _ & E).
  eexists. split; [exact E |]. cbn [fee netAmount].
  split; [reflexivity |]. split; [lia |].
  intros Hp Hf. rewrite Z.quot_div_nonneg by nia. split.
  - apply Z.div_pos; nia.
  - apply Z.div_le_upper_bound; nia.
Qed.

Lemma previewTrade_fee_split_witness :
  exists p,
    previewTrade 1000 true 50 50 100 50 = Ok p /\
    fee p = (1000 * 50) ÷ 10000 /\
    fee p + netAmount p = 1000 /\
    (0 <= 1000 -> 0 <= 50 <= 10000 -> 0 <= fee p <= 1000).
Proof.
  apply (previewTrade_fee_split 1000 true 50 50 100 50); lia.
Defined.

(** X12: on a valid market the preview's shares lie between 0 and ten times
    the net amount (0 when the net amount is not positive), buying never
    lowers the price of the bought outcome (newPrice is at most 10^18 and
    priceImpact is never negative), and avgPrice is 0 when no share is
    bought and at least 10^17 otherwise. *)
Theorem previewTrade_price_effects (payAmount : Z) (isYes : bool)
    (qYes qNo b feeRate : Z) :
  0 <= qYes -> 0 <= qNo -> 0 < b ->
  exists p,
    previewTrade payAmount isYes qYes qNo b feeRate = Ok p /\
    0 <= expectedShares p <= Z.max 0 (netAmount p * 10) /\
    0 <= newPrice p <= 10 ^ 18 /\
    0 <= priceImpact p /\
    (expectedShares p = 0 -> avgPrice p = 0) /\
    (0 < expectedShares p -> 10 ^ 17 <= avgPrice p).
Proof.
  intros HY HN Hb.
  destruct (previewTrade_inv payAmount isYes qYes qNo b feeRate HY HN Hb)
    as (r & cY & cN & nY & nN & _ & Hr & Ec & En & E).
  eexists. split; [exact E |].
  cbn [expectedShares netAmount newPrice priceImpact avgPrice].
  pose proof (price_after_buy isYes qYes qNo b r cY cN nY nN
                HY HN Hb ltac:(lia) Ec En) as Hp.
  cbv zeta in Hp. assert (HW : WAD = 10 ^ 18) by reflexivity.
  set (cur := if isYes then cY else cN) in *.
  set (new := if isYes then nY else nN) in *.
  set (net := payAmount - (payAmount * feeRate) ÷ 10000) in *.
  split; [exact Hr |]. split; [lia |]. split; [| split].
  - destruct (Z.ltb_spec 0 cur); [| lia].
    apply Z.quot_pos; [| lia]. nia.
  - intros ->. reflexivity.
  - intros Hs. destruct (Z.ltb_spec 0 r); [| lia].
    rewrite Z.quot_div_nonneg by nia.
    apply Z.div_le_lower_bound; [lia |]. nia.
Qed.

Lemma previewTrade_price_effects_witness :
  exists p,
    previewTrade 1000 false 50 50 100 50 = Ok p /\
    0 <= expectedShares p <= Z.max 0 (netAmount p * 10) /\
    0 <= newPrice p <= 10 ^ 18 /\
    0 <= priceImpact p /\
    (expectedShares p = 0 -> avgPrice p = 0) /\
    (0 < expectedShares p -> 10 ^ 17 <= avgPrice p).
Proof.
  apply (previewTrade_price_effects 1000 false 50 50 100 50); lia.
Defined.

(** ** calculateB *)

(** X13: for parameters b0 > 0, alpha, beta >= 0 and V0 > 0 and inputs
    totalVolume, txCount >= 0, calculateB returns a value that is at least
    b0; it is therefore a valid, positive liquidity for getPrice and
    getCost, which return a value for every qYes, qNo >= 0. *)
Theorem calculateB_feeds_pricing (params : LMSRParams)
    (totalVolume txCount qYes qNo : Z) :
  0 < b0 params -> 0 <= alpha params -> 0 <= beta params -> 0 < V0 params ->
  0 <= totalVolume -> 0 <= txCount -> 0 <= qYes -> 0 <= qNo ->
  exists b,
    calculateB params totalVolume txCount = Ok b /\
    b0 params <= b /\
    (exists p, getPrice qYes qNo b = Ok p) /\
    (exists c, getCost qYes qNo b = Ok c).
Proof.
  intros Hb0 Ha Hbt HV Hv Ht HY HN.
  destruct (calculateB_unfold params totalVolume txCount HV Hv Ht)
    as (l & _ & _ & E).
  eexists. split; [exact E |].
  assert (Hge : b0 params <=
                (b0 params *
                 (WAD + (alpha params * Z.sqrt ((totalVolume * WAD) ÷ V0 params)) ÷ WAD
                      + (beta params * l) ÷ WAD)) ÷ WAD).
  { exact (calculateB_mono params 0 totalVolume 0 txCount _ _ Hb0 Ha Hbt HV
             ltac:(lia) ltac:(lia) eq_refl E). }
  set (bv := (b0 params * _) ÷ WAD) in *.
  split; [exact Hge |]. split.
  - destruct (getPrice_sum qYes qNo bv HY HN ltac:(lia)) as (pY & pN & Ep & _). eauto.
  - destruct (getCost_total qYes qNo bv HY HN ltac:(lia)) as (c & _ & _ & Ec). eauto.
Qed.

Lemma calculateB_feeds_pricing_witness :
  exists b,
    calculateB DEFAULT_LMSR_PARAMS (10 ^ 24) 10 = Ok b /\
    b0 DEFAULT_LMSR_PARAMS <= b /\
    (exists p, getPrice 7 9 b = Ok p) /\
    (exists c, getCost 7 9 b = Ok c).
Proof.
  apply (calculateB_feeds_pricing DEFAULT_LMSR_PARAMS (10 ^ 24) 10 7 9);
    vm_compute; first [reflexivity | discriminate].
Defined.

(** * The channel ledger of working-p2p-demo.ts *)

(** ** JavaScript maps *)

Lemma Map_get_set (V : Type) (k k' : string) (v : V) (m : JsMap V) :
  Map_get k' (Map_set k v m) = if String.eqb k' k then Some v else Map_get k' m.
Proof.
  induction m as [| [k0 v0] m IH]; cbn [Map_set Map_get].
  - reflexivity.
  - destruct (String.eqb_spec k k0) as [-> | Hk]; cbn [Map_get].
    + destruct (String.eqb k' k0); reflexivity.
    + destruct (String.eqb_spec k' k0) as [-> | Hk'].
      * destruct (String.eqb_spec k0 k); [congruence | reflexivity].
      * exact IH.
Qed.

Lemma Map_get_modify (V : Type) (k k' : string) (f : V -> V) (m : JsMap V) :
  Map_get k' (Map_modify k f m) =
  if String.eqb k' k then option_map f (Map_get k' m) else Map_get k' m.
Proof.
  induction m as [| [k0 v0] m IH]; cbn [Map_modify Map_get].
  - destruct (String.eqb k' k); reflexivity.
  - destruct (String.eqb_spec k k0) as [-> | Hk]; cbn [Map_get].
    + destruct (String.eqb k' k0); reflexivity.
    + destruct (String.eqb_spec k' k0) as [-> | Hk'].
      * destruct (String.eqb_spec k0 k); [congruence | reflexivity].
      * exact IH.
Qed.

Lemma Map_keys_modify (V : Type) (k : string) (f : V -> V) (m : JsMap V) :
  Map_keys (Map_modify k f m) = Map_keys m.
Proof.
  induction m as [| [k0 v0] m IH]; cbn [Map_modify]; [reflexivity |].
  destruct (String.eqb k k0); cbn; [reflexivity |].
  unfold Map_keys in IH. rewrite IH. reflexivity.
Qed.

Lemma fold_left_add_init (V : Type) (g : V -> Z) (l : list V) (a : Z) :
  fold_left (fun acc v => acc + g v) l a = a + fold_left (fun acc v => acc + g v) l 0.
Proof.
  revert a. induction l as [| v l IH]; intros a; cbn [fold_left]; [lia |].
  rewrite IH, (IH (0 + g v)). lia.
Qed.

Lemma sumBy_cons (V : Type) (g : V -> Z) (k : string) (v : V) (m : JsMap V) :
  sumBy g ((k, v) :: m) = g v + sumBy g m.
Proof.
  unfold sumBy. cbn [Map_values map snd fold_left].
  rewrite fold_left_add_init. fold (Map_values m). lia.
Qed.

Lemma sumBy_modify (V : Type) (g : V -> Z) (k : string) (f : V -> V) (m : JsMap V) :
  sumBy g (Map_modify k f m) =
  sumBy g m + match Map_get k m with
              | Some v => g (f v) - g v
              | None => 0
              end.
Proof.
  induction m as [| [k0 v0] m IH]; cbn [Map_modify Map_get].
  - lia.
  - destruct (String.eqb k k0).
    + rewrite !sumBy_cons. lia.
    + rewrite !sumBy_cons, IH. lia.
Qed.

Import WorkingP2PDemo.

(** ** createP2PChannel *)




(** ** executeP2PTrade *)

Section Trade.

Variable parseUnits : string -> Z -> option Z.

Lemma executeP2PTrade_accepted (channels : Channels)
    (cid fromAddress toAddress : string) (tt : TradeType) (usdcAmount : string)
    (tradeId : string) (now : Z) (channel : ChannelState) (amt : Z)
    (fromBalance toBalance : Balance) :
  tradeAccepted parseUnits channels cid fromAddress toAddress usdcAmount
    channel amt fromBalance toBalance ->
  executeP2PTrade parseUnits channels cid fromAddress toAddress tt usdcAmount
    tradeId now =
  (Map_set cid
     (tradedChannel channel cid fromAddress toAddress tt usdcAmount amt tradeId now)
     channels,
   Returned true).
Proof.
  intros (Ec & Ho & Ep & Ef & Et & Hle).
  unfold executeP2PTrade, tradedChannel.
  rewrite Ec, Ho. cbn [negb]. rewrite Ep, Ef, Et.
  destruct (Z.ltb_spec (usdc fromBalance) amt); [lia | reflexivity].
Qed.

Lemma executeP2PTrade_inv (channels : Channels)
    (cid fromAddress toAddress : string) (tt : TradeType) (usdcAmount : string)
    (tradeId : string) (now : Z) :
  (fst (executeP2PTrade parseUnits channels cid fromAddress toAddress tt
          usdcAmount tradeId now) = channels /\
   snd (executeP2PTrade parseUnits channels cid fromAddress toAddress tt
          usdcAmount tradeId now) <> Returned true /\
   ~ (exists channel amt fromBalance toBalance,
        tradeAccepted parseUnits channels cid fromAddress toAddress usdcAmount
          channel amt fromBalance toBalance))
  \/
  (exists channel amt fromBalance toBalance,
     tradeAccepted parseUnits channels cid fromAddress toAddress usdcAmount
       channel amt fromBalance toBalance).
Proof.
  unfold tradeAccepted.
  destruct (Map_get cid channels) as [channel |] eqn:Ec.
  2:{ left. unfold executeP2PTrade. rewrite Ec. cbn.
      repeat split; try discriminate.
      intros (c & a & f & t & H & _). discriminate. }
  destruct (isOpen channel) eqn:Ho.
  2:{ left. unfold executeP2PTrade. rewrite Ec, Ho. cbn.
      repeat split; try discriminate.
      intros (c & a & f & t & H & H' & _). congruence. }
  destruct (parseUnits usdcAmount 18) as [amt |] eqn:Ep.
  2:{ left. unfold executeP2PTrade. rewrite Ec, Ho. cbn [negb]. rewrite Ep. cbn.
      repeat split; try discriminate.
      intros (c & a & f & t & _ & _ & H & _). discriminate. }
  destruct (Map_get fromAddress (balances channel)) as [fb |] eqn:Ef.
  2:{ left. unfold executeP2PTrade. rewrite Ec, Ho. cbn [negb]. rewrite Ep, Ef. cbn.
      repeat split; try discriminate.
      intros (c & a & f & t & H & _ & _ & H' & _). congruence. }
  destruct (Map_get toAddress (balances channel)) as [tb |] eqn:Et.
  2:{ left. unfold executeP2PTrade. rewrite Ec, Ho. cbn [negb]. rewrite Ep, Ef, Et. cbn.
      repeat split; try discriminate.
      intros (c & a & f & t & H & _ & _ & _ & H' & _). congruence. }
  destruct (Z.ltb_spec (usdc fb) amt) as [Hlt | Hge].
  - left. unfold executeP2PTrade. rewrite Ec, Ho. cbn [negb]. rewrite Ep, Ef, Et.
    destruct (Z.ltb_spec (usdc fb) amt); [| lia]. cbn.
    repeat split; try discriminate.
    intros (c & a & f & t & H1 & _ & H3 & H4 & _ & H6).
    assert (c = channel) by congruence. subst c.
    assert (a = amt) by congruence. subst a.
    assert (f = fb) by congruence. subst f. lia.
  - right. exists channel, amt, fb, tb. repeat split; auto.
Qed.


End Trade.


Section TradeEffects.

Variable parseUnits : string -> Z -> option Z.
Variables (channels : Channels) (cid fromAddress toAddress : string).
Variables (tt : TradeType) (usdcAmount tradeId : string) (now : Z).

Local Abbreviation result :=
  (executeP2PTrade parseUnits channels cid fromAddress toAddress tt usdcAmount
     tradeId now).

Lemma usdc_creditShares (s : Z) (b : Balance) : usdc (creditShares tt s b) = usdc b.
Proof. destruct tt; reflexivity. Qed.

Lemma tradedChannel_usdc (channel : ChannelState) (amt : Z) (fb tb : Balance) :
  Map_get fromAddress (balances channel) = Some fb ->
  Map_get toAddress (balances channel) = Some tb ->
  totalUsdc (balances (tradedChannel channel cid fromAddress toAddress tt
                         usdcAmount amt tradeId now))
  = totalUsdc (balances channel).
Proof.
  intros Ef Et. unfold tradedChannel, totalUsdc. cbn [balances].
  rewrite !sumBy_modify, !Map_get_modify, Ef, Et, String.eqb_refl.
  cbn [option_map].
  destruct (String.eqb toAddress fromAddress), (String.eqb fromAddress toAddress);
    cbn [option_map]; rewrite ?usdc_creditShares; cbn [addUsdc usdc]; lia.
Qed.

(** X16: whatever executeP2PTrade answers, the USDC held in each channel,
    all participants together, is the same after the call as before; this
    covers a sender who is also the receiver. *)
Theorem executeP2PTrade_conserves_usdc (c : string) :
  option_map (fun ch => totalUsdc (balances ch)) (Map_get c (fst result)) =
  option_map (fun ch => totalUsdc (balances ch)) (Map_get c channels).
Proof.
  destruct (executeP2PTrade_inv parseUnits channels cid fromAddress toAddress tt
              usdcAmount tradeId now) as [(Hs & _) | (ch & a & f & t & Hacc)].
  - rewrite Hs. reflexivity.
  - rewrite (executeP2PTrade_accepted _ _ _ _ _ tt _ tradeId now _ _ _ _ Hacc).
    cbn [fst]. rewrite Map_get_set.
    destruct Hacc as (Ec & _ & _ & Ef & Et & _).
    destruct (String.eqb_spec c cid) as [-> | _]; [| reflexivity].
    rewrite Ec. cbn [option_map]. f_equal.
    exact (tradedChannel_usdc ch a f t Ef Et).
Qed.

(** X17: an accepted trade between two different participants takes the
    amount from the sender's USDC, adds it to the receiver's, credits the
    sender with (amount * 95) / 100 shares of the traded type, leaves every
    other balance and every other channel alone, adds the amount to the
    channel's volume and appends one unsettled trade; the channel stays
    open. *)
Theorem executeP2PTrade_transfer (channel : ChannelState) (amt : Z)
    (fb tb : Balance) :
  tradeAccepted parseUnits channels cid fromAddress toAddress usdcAmount
    channel amt fb tb ->
  fromAddress <> toAddress ->
  exists channel',
    snd result = Returned true /\
    getChannelState (fst result) cid = Some channel' /\
    (forall other, other <> cid ->
       getChannelState (fst result) other = getChannelState channels other) /\
    Map_get fromAddress (balances channel') =
      Some {| yesShares := yesShares fb +
                           match tt with YES => (amt * 95) ÷ 100 | NO => 0 end;
              noShares := noShares fb +
                          match tt with YES => 0 | NO => (amt * 95) ÷ 100 end;
              usdc := usdc fb - amt |} /\
    Map_get toAddress (balances channel') =
      Some {| yesShares := yesShares tb; noShares := noShares tb;
              usdc := usdc tb + amt |} /\
    (forall p, p <> fromAddress -> p <> toAddress ->
       Map_get p (balances channel') = Map_get p (balances channel)) /\
    totalVolume channel' = totalVolume channel + amt /\
    trades channel' =
      trades channel ++
      [{| id := tradeId; from := fromAddress; to := toAddress; tradeType := tt;
          amount := usdcAmount; timestamp := now; trade_channelId := cid;
          settled := false |}] /\
    isOpen channel' = true.
Proof.
  intros Hacc Hne.
  rewrite (executeP2PTrade_accepted _ _ _ _ _ tt _ tradeId now _ _ _ _ Hacc).
  destruct Hacc as (Ec & Ho & _ & Ef & Et & _).
  eexists. cbn [fst snd]. unfold getChannelState.
  split; [reflexivity |]. split.
  { rewrite Map_get_set, String.eqb_refl. reflexivity. }
  split.
  { intros other Ho'. rewrite Map_get_set.
    destruct (String.eqb_spec other cid); [contradiction | reflexivity]. }
  unfold tradedChannel. cbn [balances totalVolume trades isOpen].
  split; [| split; [| split]].
  - rewrite !Map_get_modify, Ef, String.eqb_refl.
    destruct (String.eqb_spec fromAddress toAddress); [contradiction |].
    cbn [option_map]. f_equal.
    destruct tt; cbn [creditShares addUsdc yesShares noShares usdc];
      f_equal; lia.
  - rewrite !Map_get_modify, Et.
    destruct (String.eqb_spec toAddress fromAddress); [congruence |].
    rewrite String.eqb_refl. reflexivity.
  - intros p H1 H2. rewrite !Map_get_modify.
    destruct (String.eqb_spec p fromAddress); [contradiction |].
    destruct (String.eqb_spec p toAddress); [contradiction | reflexivity].
  - auto.
Qed.

(** X18: a participant who trades with itself keeps its USDC (the amount
    is taken and given back) and still receives (amount * 95) / 100 shares,
    and the channel's volume grows by the amount. *)
Theorem executeP2PTrade_self_trade (channel : ChannelState) (amt : Z)
    (fb : Balance) :
  tradeAccepted parseUnits channels cid fromAddress toAddress usdcAmount
    channel amt fb fb ->
  toAddress = fromAddress ->
  exists channel',
    snd result = Returned true /\
    getChannelState (fst result) cid = Some channel' /\
    Map_get fromAddress (balances channel') =
      Some {| yesShares := yesShares fb +
                           match tt with YES => (amt * 95) ÷ 100 | NO => 0 end;
              noShares := noShares fb +
                          match tt with YES => 0 | NO => (amt * 95) ÷ 100 end;
              usdc := usdc fb |} /\
    (forall p, p <> fromAddress ->
       Map_get p (balances channel') = Map_get p (balances channel)) /\
    totalVolume channel' = totalVolume channel + amt.
Proof.
  intros Hacc Heq.
  rewrite (executeP2PTrade_accepted _ _ _ _ _ tt _ tradeId now _ _ _ _ Hacc).
  destruct Hacc as (Ec & Ho & _ & Ef & Et & _).
  eexists. cbn [fst snd]. unfold getChannelState.
  split; [reflexivity |]. split.
  { rewrite Map_get_set, String.eqb_refl. reflexivity. }
  unfold tradedChannel. cbn [balances totalVolume]. rewrite Heq.
  split; [| split].
  - rewrite !Map_get_modify, Ef, String.eqb_refl.
    cbn [option_map]. f_equal.
    destruct tt; cbn [creditShares addUsdc yesShares noShares usdc];
      f_equal; lia.
  - intros p H1. rewrite !Map_get_modify.
    destruct (String.eqb_spec p fromAddress); [contradiction | reflexivity].
  - reflexivity.
Qed.

(** X19: if no balance of a channel is negative and the parsed amount is
    not negative, no balance of that channel is negative after
    executeP2PTrade, whatever it answers. *)
Theorem executeP2PTrade_keeps_nonneg (channel channel' : ChannelState) :
  Map_get cid channels = Some channel ->
  nonnegBalances (balances channel) ->
  (forall a, parseUnits usdcAmount 18 = Some a -> 0 <= a) ->
  Map_get cid (fst result) = Some channel' ->
  nonnegBalances (balances channel').
Proof.
  intros Ec Hnn Hpos.
  destruct (executeP2PTrade_inv parseUnits channels cid fromAddress toAddress tt
              usdcAmount tradeId now) as [(Hs & _) | (ch & a & f & t & Hacc)].
  - rewrite Hs, Ec. intros E. injection E as <-. exact Hnn.
  - rewrite (executeP2PTrade_accepted _ _ _ _ _ tt _ tradeId now _ _ _ _ Hacc).
    destruct Hacc as (Ec' & _ & Ep & Ef & Et & Hle).
    assert (ch = channel) by congruence. subst ch.
    specialize (Hpos a Ep).
    cbn [fst]. rewrite Map_get_set, String.eqb_refl.
    intros E. injection E as <-.
    unfold tradedChannel. cbn [balances].
    intros p b. rewrite !Map_get_modify.
    assert (Hs : 0 <= (a * 95) ÷ 100) by (apply Z.quot_pos; lia).
    pose proof (Hnn _ _ Ef) as Hf.
    destruct (String.eqb_spec p fromAddress) as [-> | Hpf].
    + rewrite Ef.
      destruct (String.eqb_spec fromAddress toAddress) as [_ | _];
        cbn [option_map]; intros Eb; injection Eb as <-;
        destruct tt; cbn [creditShares addUsdc yesShares noShares usdc]; lia.
    + destruct (String.eqb_spec p toAddress) as [-> | Hpt].
      * rewrite Et. cbn [option_map]. intros Eb. injection Eb as <-.
        pose proof (Hnn _ _ Et). cbn [addUsdc yesShares noShares usdc]. lia.
      * intros Eb. exact (Hnn _ _ Eb).
Qed.

End TradeEffects.

Lemma demo_trade_accepted :
  tradeAccepted (fun _ _ => Some 100)
    [("c1"%string,
      {| channelId := "c1"; participants := ["alice"%string; "bob"%string];
         balances := [("alice"%string, {| yesShares := 0; noShares := 0; usdc := 1000 |});
                      ("bob"%string, {| yesShares := 0; noShares := 0; usdc := 40 |})];
         trades := []; totalVolume := 0; isOpen := true |})]
    "c1" "alice" "bob" "100"
    {| channelId := "c1"; participants := ["alice"%string; "bob"%string];
       balances := [("alice"%string, {| yesShares := 0; noShares := 0; usdc := 1000 |});
                    ("bob"%string, {| yesShares := 0; noShares := 0; usdc := 40 |})];
       trades := []; totalVolume := 0; isOpen := true |}
    100
    {| yesShares := 0; noShares := 0; usdc := 1000 |}
    {| yesShares := 0; noShares := 0; usdc := 40 |}.
Proof. unfold tradeAccepted. cbn. repeat split; lia. Defined.

Lemma demo_self_trade_accepted :
  tradeAccepted (fun _ _ => Some 100)
    [("c1"%string,
      {| channelId := "c1"; participants := ["alice"%string];
         balances := [("alice"%string, {| yesShares := 0; noShares := 0; usdc := 1000 |})];
         trades := []; totalVolume := 0; isOpen := true |})]
    "c1" "alice" "alice" "100"
    {| channelId := "c1"; participants := ["alice"%string];
       balances := [("alice"%string, {| yesShares := 0; noShares := 0; usdc := 1000 |})];
       trades := []; totalVolume := 0; isOpen := true |}
    100
    {| yesShares := 0; noShares := 0; usdc := 1000 |}
    {| yesShares := 0; noShares := 0; usdc := 1000 |}.
Proof. unfold tradeAccepted. cbn. repeat split; lia. Defined.

Lemma executeP2PTrade_transfer_witness :
  exists channels channel',
    getChannelState channels "c1"%string = Some channel' /\
    Map_get "alice"%string (balances channel') =
      Some {| yesShares := 0 + (100 * 95) ÷ 100; noShares := 0 + 0;
              usdc := 1000 - 100 |} /\
    Map_get "bob"%string (balances channel') =
      Some {| yesShares := 0; noShares := 0; usdc := 40 + 100 |}.
Proof.
  destruct (executeP2PTrade_transfer _ _ _ _ _ YES _ "t1"%string 7 _ _ _ _
              demo_trade_accepted ltac:(discriminate))
    as (channel' & _ & E & _ & Hf & Ht & _).
  eexists. exists channel'. split; [exact E |]. split; [exact Hf | exact Ht].
Defined.

Lemma executeP2PTrade_self_trade_witness :
  exists channels channel',
    getChannelState channels "c1"%string = Some channel' /\
    Map_get "alice"%string (balances channel') =
      Some {| yesShares := 0 + 0; noShares := 0 + (100 * 95) ÷ 100;
              usdc := 1000 |}.
Proof.
  destruct (executeP2PTrade_self_trade _ _ _ _ _ NO _ "t1"%string 7 _ _ _
              demo_self_trade_accepted eq_refl)
    as (channel' & _ & E & Hf & _).
  eexists. exists channel'. split; [exact E | exact Hf].
Defined.

Lemma executeP2PTrade_keeps_nonneg_witness :
  nonnegBalances
    [("alice"%string, {| yesShares := 95; noShares := 0; usdc := 900 |});
     ("bob"%string, {| yesShares := 0; noShares := 0; usdc := 140 |})].
Proof.
  apply (executeP2PTrade_keeps_nonneg (fun _ _ => Some 100)
           [("c1"%string,
             {| channelId := "c1"; participants := ["alice"%string; "bob"%string];
                balances := [("alice"%string, {| yesShares := 0; noShares := 0; usdc := 1000 |});
                             ("bob"%string, {| yesShares := 0; noShares := 0; usdc := 40 |})];
                trades := []; totalVolume := 0; isOpen := true |})]
           "c1"%string "alice"%string "bob"%string YES "100"%string "t1"%string 7
           {| channelId := "c1"; participants := ["alice"%string; "bob"%string];
              balances := [("alice"%string, {| yesShares := 0; noShares := 0; usdc := 1000 |});
                           ("bob"%string, {| yesShares := 0; noShares := 0; usdc := 40 |})];
              trades := []; totalVolume := 0; isOpen := true |}
           {| channelId := "c1"; participants := ["alice"%string; "bob"%string];
              balances := [("alice"%string, {| yesShares := 95; noShares := 0; usdc := 900 |});
                           ("bob"%string, {| yesShares := 0; noShares := 0; usdc := 140 |})];
              trades := [{| id := "t1"; from := "alice"; to := "bob"; tradeType := YES;
                            amount := "100"; timestamp := 7; trade_channelId := "c1";
                            settled := false |}];
              totalVolume := 100; isOpen := true |}).
  - reflexivity.
  - intros p b. cbn [balances Map_get].
    destruct (String.eqb p "alice").
    + intros [= <-]. cbn. lia.
    + destruct (String.eqb p "bob"); [| discriminate].
      intros [= <-]. cbn. lia.
  - intros a [= <-]. lia.
  - reflexivity.
Defined.

(** ** settleChannel *)

Lemma runCalls_all (succeeds : ChainCall -> bool) (calls : list ChainCall) :
  (snd (runCalls succeeds calls) = true <->
   Forall (fun c => succeeds c = true) calls) /\
  (snd (runCalls succeeds calls) = true -> fst (runCalls succeeds calls) = calls).
Proof.
  induction calls as [| c calls [IH1 IH2]]; cbn [runCalls].
  - split; [split |]; auto.
  - destruct (succeeds c) eqn:Ec.
    + destruct (runCalls succeeds calls) as [done ok]. cbn [fst snd] in *.
      split; [split |].
      * intros H. constructor; [exact Ec | apply IH1; exact H].
      * intros H. inversion H; subst. apply IH1. assumption.
      * intros H. rewrite (IH2 H). reflexivity.
    + cbn [fst snd]. split; [split |]; try discriminate.
      intros H. inversion H; subst. congruence.
Qed.

Lemma settleChannel_cases (channels : Channels) (cid settler : string)
    (succeeds : ChainCall -> bool) :
  (snd (settleChannel channels cid settler succeeds) = false /\
   fst (fst (settleChannel channels cid settler succeeds)) = channels)
  \/
  (exists channel,
     Map_get cid channels = Some channel /\
     (totalYesShares (balances channel) =? 0)
       && (totalNoShares (balances channel) =? 0) = false /\
     Forall (fun c => succeeds c = true)
       (settlementCalls settler (totalYesShares (balances channel))
          (totalNoShares (balances channel))) /\
     settleChannel channels cid settler succeeds =
     (Map_set cid
        {| channelId := channelId channel;
           participants := participants channel;
           balances := balances channel;
           trades := map markSettled (trades channel);
           totalVolume := totalVolume channel;
           isOpen := false |} channels,
      settlementCalls settler (totalYesShares (balances channel))
        (totalNoShares (balances channel)),
      true)).
Proof.
  unfold settleChannel.
  destruct (Map_get cid channels) as [channel |] eqn:Ec; [| left; auto].
  destruct ((totalYesShares (balances channel) =? 0)
            && (totalNoShares (balances channel) =? 0)) eqn:Ez; [left; auto |].
  pose proof (runCalls_all succeeds
                (settlementCalls settler (totalYesShares (balances channel))
                   (totalNoShares (balances channel)))) as [H1 H2].
  destruct (runCalls succeeds _) as [done ok]. cbn [fst snd] in *.
  destruct ok.
  - right. exists channel. rewrite (H2 eq_refl).
    split; [reflexivity |]. split; [exact Ez |].
    split; [apply H1; reflexivity | reflexivity].
  - left. auto.
Qed.



(** X21: once settleChannel has succeeded on a channel, executeP2PTrade on
    that channel returns false and changes nothing, whatever its
    arguments. *)
Theorem no_trade_after_settlement (parseUnits : string -> Z -> option Z)
    (channels : Channels) (cid settler : string) (succeeds : ChainCall -> bool)
    (fromAddress toAddress : string) (tt : TradeType)
    (usdcAmount tradeId : string) (now : Z) :
  snd (settleChannel channels cid settler succeeds) = true ->
  executeP2PTrade parseUnits
    (fst (fst (settleChannel channels cid settler succeeds)))
    cid fromAddress toAddress tt usdcAmount tradeId now =
  (fst (fst (settleChannel channels cid settler succeeds)), Returned false).
Proof.
  intros Hok.
  destruct (settleChannel_cases channels cid settler succeeds)
    as [(Hf & _) | (channel & _ & _ & _ & E)]; [congruence |].
  rewrite E. cbn [fst snd]. unfold executeP2PTrade.
  rewrite Map_get_set, String.eqb_refl. reflexivity.
Qed.

Lemma no_trade_after_settlement_witness :
  exists channels,
    executeP2PTrade (fun _ _ => Some 100) channels "c1"%string "alice"%string
      "bob"%string YES "100"%string "t2"%string 9 = (channels, Returned false).
Proof.
  eexists.
  apply (no_trade_after_settlement (fun _ _ => Some 100)
           [("c1"%string,
             {| channelId := "c1"; participants := ["alice"%string; "bob"%string];
                balances := [("alice"%string, {| yesShares := 95; noShares := 0; usdc := 900 |});
                             ("bob"%string, {| yesShares := 0; noShares := 0; usdc := 140 |})];
                trades := []; totalVolume := 100; isOpen := true |})]
           "c1"%string "alice"%string (fun _ => true)).
  reflexivity.
Defined.

(** ** Ledgers reachable from the empty one *)











(** * previewTrade followed by validateState *)

Lemma validateState_valid (qYes qNo b : Z) :
  0 <= qYes -> 0 <= qNo -> 0 < b -> validateState qYes qNo b = Ok true.
Proof.
  intros HY HN Hb. unfold validateState.
  destruct (Z.ltb_spec qYes 0); [lia |].
  destruct (Z.ltb_spec qNo 0); [lia |].
  destruct (Z.leb_spec b 0); [lia |]. cbn [orb].
  destruct (getPrice_sum qYes qNo b HY HN Hb) as (pY & pN & -> & Hs).
  cbn [bind]. f_equal. unfold WAD in *.
  rewrite Number_small by lia.
  cbn [Math_abs]. change (Number (10 ^ 15)) with (Fin (10 ^ 15)).
  cbn [number_lt]. apply Z.ltb_lt. lia.
Qed.

(** X23: on a valid market, the state obtained by adding the previewed
    shares to the bought outcome passes validateState, for every payment
    and fee rate. *)
Theorem previewTrade_then_validateState (payAmount : Z) (isYes : bool)
    (qYes qNo b feeRate : Z) :
  0 <= qYes -> 0 <= qNo -> 0 < b ->
  exists p,
    previewTrade payAmount isYes qYes qNo b feeRate = Ok p /\
    validateState (if isYes then qYes + expectedShares p else qYes)
                  (if isYes then qNo else qNo + expectedShares p) b = Ok true.
Proof.
  intros HY HN Hb.
  destruct (previewTrade_inv payAmount isYes qYes qNo b feeRate HY HN Hb)
    as (r & cY & cN & nY & nN & _ & Hr & _ & _ & E).
  eexists. split; [exact E |]. cbn [expectedShares].
  apply validateState_valid; destruct isYes; lia.
Qed.

Lemma previewTrade_then_validateState_witness :
  exists p,
    previewTrade 1000 true 50 50 100 50 = Ok p /\
    validateState (50 + expectedShares p) 50 100 = Ok true.
Proof.
  apply (previewTrade_then_validateState 1000 true 50 50 100 50); lia.
Defined.

(** * The market state of real-yellow-broker-trading.ts *)

Lemma fraction_bounds (a n s : Z) :
  0 <= a -> 0 <= n -> 0 < a + n -> 0 <= s -> 0 <= (a * s) / (a + n) <= s.
Proof.
  intros Ha Hn Hp Hs. split.
  - apply Z.div_pos; nia.
  - apply Z.div_le_upper_bound; nia.
Qed.

Lemma calculateLMSRTrade_shares (st : RealYellowNetworkBroker.MarketState) (yes : bool)
    (amount b : Z) :
  0 < RealYellowNetworkBroker.qYes st -> 0 < RealYellowNetworkBroker.qNo st -> 0 < b -> 0 <= amount ->
  exists shares price,
    RealYellowNetworkBroker.calculateLMSRTrade st yes amount b = Ok (shares, price) /\
    0 <= shares <= amount * 10 ^ 12.
Proof.
  intros HY HN Hb Ha. unfold RealYellowNetworkBroker.calculateLMSRTrade.
  set (q := if yes then RealYellowNetworkBroker.qYes st else RealYellowNetworkBroker.qNo st).
  assert (Hq : 0 <= q) by (unfold q; destruct yes; lia).
  rewrite bigdiv_pos by exact Hb. cbn [bind].
  assert (Hr : 0 <= q ÷ b) by (apply Z.quot_pos; lia).
  rewrite bigdiv_pos by lia. cbn [bind].
  set (shares := (amount * 10 ^ 18) ÷ (10 ^ 6 + q ÷ b)).
  assert (Hs : 0 <= shares <= amount * 10 ^ 12).
  { unfold shares. rewrite Z.quot_div_nonneg by lia. split.
    - apply Z.div_pos; lia.
    - apply Z.div_le_upper_bound; [lia |]. nia. }
  rewrite bigdiv_pos by (destruct yes; lia). cbn [bind].
  do 2 eexists. split; [reflexivity | exact Hs].
Qed.

(** X24: for a market with qYes, qNo >= 0, not both zero, a liquidity
    b > 0 and an amount >= 0, calculateLMSRTrade returns shares between 0
    and amount * 10^12 and a price between 0 and 10^18.  The price is the
    YES share of the new quantities whichever side is bought: buying YES
    never lowers it and buying NO never raises it. *)
Theorem calculateLMSRTrade_valid (st : RealYellowNetworkBroker.MarketState) (yes : bool)
    (amount b : Z) :
  0 <= RealYellowNetworkBroker.qYes st -> 0 <= RealYellowNetworkBroker.qNo st ->
  0 < RealYellowNetworkBroker.qYes st + RealYellowNetworkBroker.qNo st -> 0 < b -> 0 <= amount ->
  exists shares price,
    RealYellowNetworkBroker.calculateLMSRTrade st yes amount b = Ok (shares, price) /\
    0 <= shares <= amount * 10 ^ 12 /\
    0 <= price <= 10 ^ 18 /\
    (yes = true ->
     (RealYellowNetworkBroker.qYes st * 10 ^ 18) / (RealYellowNetworkBroker.qYes st + RealYellowNetworkBroker.qNo st) <= price) /\
    (yes = false ->
     price <= (RealYellowNetworkBroker.qYes st * 10 ^ 18) / (RealYellowNetworkBroker.qYes st + RealYellowNetworkBroker.qNo st)).
Proof.
  intros HY HN Hpos Hb Ha.
  unfold RealYellowNetworkBroker.calculateLMSRTrade.
  set (q := if yes then RealYellowNetworkBroker.qYes st else RealYellowNetworkBroker.qNo st).
  assert (Hq : 0 <= q) by (unfold q; destruct yes; assumption).
  rewrite bigdiv_pos by exact Hb. cbn [bind].
  assert (Hr : 0 <= q ÷ b) by (apply Z.quot_pos; lia).
  rewrite bigdiv_pos by lia. cbn [bind].
  set (shares := (amount * 10 ^ 18) ÷ (10 ^ 6 + q ÷ b)).
  assert (Hs : 0 <= shares <= amount * 10 ^ 12).
  { unfold shares. rewrite Z.quot_div_nonneg by lia. split.
    - apply Z.div_pos; lia.
    - apply Z.div_le_upper_bound; [lia |]. nia. }
  rewrite bigdiv_pos by (destruct yes; lia). cbn [bind].
  do 2 eexists. split; [reflexivity |]. split; [exact Hs |].
  rewrite Z.quot_div_nonneg by (destruct yes; lia).
  destruct yes.
  - split; [apply fraction_bounds; lia |]. split; [| discriminate].
    intros _. apply div_cross_le; first [lia | nia].
  - split; [| split; [discriminate |]].
    + pose proof (fraction_bounds (RealYellowNetworkBroker.qYes st) (RealYellowNetworkBroker.qNo st + shares)
                    (10 ^ 18) HY ltac:(lia) ltac:(lia) ltac:(lia)) as H.
      rewrite Z.add_assoc in H. rewrite Z.add_assoc. exact H.
    + intros _. rewrite Z.add_assoc. apply Z.div_le_compat_l; lia.
Qed.

Lemma calculateLMSRTrade_valid_witness :
  exists shares price,
    RealYellowNetworkBroker.calculateLMSRTrade RealYellowNetworkBroker.initialState true (10 ^ 6) (10 ^ 8)
      = Ok (shares, price) /\
    0 <= shares <= 10 ^ 6 * 10 ^ 12 /\
    0 <= price <= 10 ^ 18.
Proof.
  assert (H1 : 0 <= RealYellowNetworkBroker.qYes RealYellowNetworkBroker.initialState) by (vm_compute; discriminate).
  assert (H2 : 0 <= RealYellowNetworkBroker.qNo RealYellowNetworkBroker.initialState) by (vm_compute; discriminate).
  assert (H3 : 0 < RealYellowNetworkBroker.qYes RealYellowNetworkBroker.initialState + RealYellowNetworkBroker.qNo RealYellowNetworkBroker.initialState)
    by (vm_compute; reflexivity).
  assert (H4 : 0 < 10 ^ 8) by (vm_compute; reflexivity).
  assert (H5 : 0 <= 10 ^ 6) by (vm_compute; discriminate).
  pose proof (calculateLMSRTrade_valid RealYellowNetworkBroker.initialState true (10 ^ 6) (10 ^ 8)
                H1 H2 H3 H4 H5) as (s & p & E & Hs & Hp & _).
  exists s, p. split; [exact E |]. split; [exact Hs | exact Hp].
Defined.

(** X25: calculateLMSRTrade throws the division error when b = 0, and
    when the market is empty and the amount is 0 (the price is then
    0 / 0). *)
Theorem calculateLMSRTrade_division_errors (st : RealYellowNetworkBroker.MarketState)
    (yes : bool) (amount b : Z) :
  RealYellowNetworkBroker.calculateLMSRTrade st yes amount 0 = Throw DivByZero /\
  (RealYellowNetworkBroker.qYes st = 0 -> RealYellowNetworkBroker.qNo st = 0 -> b <> 0 ->
   RealYellowNetworkBroker.calculateLMSRTrade st yes 0 b = Throw DivByZero).
Proof.
  split; [reflexivity |].
  intros HY HN Hb. unfold RealYellowNetworkBroker.calculateLMSRTrade. rewrite HY, HN.
  assert (E : bigdiv (if yes then 0 else 0) b = Ok 0).
  { unfold bigdiv. destruct (Z.eqb_spec b 0); [contradiction |].
    destruct yes; rewrite Z.quot_0_l by assumption; reflexivity. }
  rewrite E. cbn [bind]. destruct yes; reflexivity.
Qed.

Lemma calculateLMSRTrade_division_errors_witness :
  RealYellowNetworkBroker.calculateLMSRTrade (RealYellowNetworkBroker.mkMarket 0 0 0 0) false 0 7 = Throw DivByZero.
Proof.
  apply (proj2 (calculateLMSRTrade_division_errors (RealYellowNetworkBroker.mkMarket 0 0 0 0)
                  false 0 7)); [reflexivity | reflexivity | discriminate].
Defined.

Lemma number_succ_small (n : Z) : 0 <= n < 2 ^ 53 - 1 -> RealYellowNetworkBroker.number_succ n = n + 1.
Proof.
  intros Hn. unfold RealYellowNetworkBroker.number_succ. rewrite Number_small by lia. reflexivity.
Qed.

Lemma executeRealP2PTrade_step (st : RealYellowNetworkBroker.MarketState) (yes : bool) (amount : Z) :
  100 * 10 ^ 6 <= RealYellowNetworkBroker.qYes st -> 100 * 10 ^ 6 <= RealYellowNetworkBroker.qNo st ->
  0 <= RealYellowNetworkBroker.totalVolume st -> 0 <= RealYellowNetworkBroker.txCount st < 2 ^ 53 - 1 ->
  0 <= amount ->
  exists st' shares price,
    RealYellowNetworkBroker.executeRealP2PTrade st yes amount = Ok (st', shares, price) /\
    100 * 10 ^ 6 <= RealYellowNetworkBroker.qYes st' /\ 100 * 10 ^ 6 <= RealYellowNetworkBroker.qNo st' /\
    RealYellowNetworkBroker.qYes st' + RealYellowNetworkBroker.qNo st' = RealYellowNetworkBroker.qYes st + RealYellowNetworkBroker.qNo st + shares /\
    0 <= shares <= amount * 10 ^ 12 /\
    RealYellowNetworkBroker.totalVolume st' = RealYellowNetworkBroker.totalVolume st + amount /\
    RealYellowNetworkBroker.txCount st' = RealYellowNetworkBroker.txCount st + 1.
Proof.
  intros HY HN HV HT Ha. unfold RealYellowNetworkBroker.executeRealP2PTrade, RealYellowNetworkBroker.calculateDynamicB.
  rewrite bigdiv_pos by lia. cbn [bind].
  set (b := 100 * 10 ^ 6 + RealYellowNetworkBroker.totalVolume st ÷ (1000 * 10 ^ 6) + RealYellowNetworkBroker.txCount st).
  assert (Hb : 0 < b).
  { unfold b. pose proof (Z.quot_pos (RealYellowNetworkBroker.totalVolume st) (1000 * 10 ^ 6)). lia. }
  destruct (calculateLMSRTrade_shares st yes amount b) as (s & p & E & Hs); try lia.
  rewrite E. cbn [bind]. do 3 eexists. split; [reflexivity |].
  cbn [RealYellowNetworkBroker.qYes RealYellowNetworkBroker.qNo RealYellowNetworkBroker.totalVolume RealYellowNetworkBroker.txCount].
  rewrite number_succ_small by lia. destruct yes; lia.
Qed.

(** X26: starting from the initial market state of the class, any run of
    fewer than 2^53 - 1 trades with amounts >= 0 goes through without an
    error; afterwards qYes and qNo are still at least 100 * 10^6, the
    volume is the sum of the amounts, txCount is the number of trades, and
    calculateDynamicB returns a liquidity of at least 100 * 10^6. *)
Theorem brokerRun_invariant (ts : list (bool * Z)) :
  Forall (fun t => 0 <= snd t) ts ->
  Z.of_nat (List.length ts) < 2 ^ 53 - 1 ->
  exists st b,
    brokerRun RealYellowNetworkBroker.initialState ts = Ok st /\
    100 * 10 ^ 6 <= RealYellowNetworkBroker.qYes st /\ 100 * 10 ^ 6 <= RealYellowNetworkBroker.qNo st /\
    RealYellowNetworkBroker.totalVolume st = sumZ (map snd ts) /\
    RealYellowNetworkBroker.txCount st = Z.of_nat (List.length ts) /\
    RealYellowNetworkBroker.calculateDynamicB st = Ok b /\ 100 * 10 ^ 6 <= b.
Proof.
  intros Hall Hlen.
  assert (G : forall ts st,
             Forall (fun t => 0 <= snd t) ts ->
             100 * 10 ^ 6 <= RealYellowNetworkBroker.qYes st -> 100 * 10 ^ 6 <= RealYellowNetworkBroker.qNo st ->
             0 <= RealYellowNetworkBroker.totalVolume st -> 0 <= RealYellowNetworkBroker.txCount st ->
             RealYellowNetworkBroker.txCount st + Z.of_nat (List.length ts) < 2 ^ 53 - 1 ->
             exists st',
               brokerRun st ts = Ok st' /\
               100 * 10 ^ 6 <= RealYellowNetworkBroker.qYes st' /\ 100 * 10 ^ 6 <= RealYellowNetworkBroker.qNo st' /\
               RealYellowNetworkBroker.totalVolume st' = RealYellowNetworkBroker.totalVolume st + sumZ (map snd ts) /\
               RealYellowNetworkBroker.txCount st' = RealYellowNetworkBroker.txCount st + Z.of_nat (List.length ts)).
  { clear. induction ts as [| [yes amount] ts IH]; intros st Hall HY HN HV HT Hlen.
    - exists st. cbn. repeat split; lia.
    - inversion Hall as [| ? ? Ha Hall']; subst. cbn [snd] in Ha.
      cbn [List.length] in Hlen. rewrite Nat2Z.inj_succ in Hlen.
      destruct (executeRealP2PTrade_step st yes amount HY HN HV ltac:(lia) Ha)
        as (st1 & s & p & E & HY1 & HN1 & _ & _ & HV1 & HT1).
      destruct (IH st1 Hall' HY1 HN1 ltac:(lia) ltac:(lia) ltac:(lia))
        as (st' & E' & HY' & HN' & HV' & HT').
      exists st'. cbn [brokerRun]. rewrite E. cbn [bind]. rewrite E'.
      cbn [map snd sumZ fold_right List.length]. fold (sumZ (map snd ts)).
      rewrite Nat2Z.inj_succ. repeat split; lia. }
  assert (I1 : 100 * 10 ^ 6 <= RealYellowNetworkBroker.qYes RealYellowNetworkBroker.initialState)
    by (vm_compute; discriminate).
  assert (I2 : 100 * 10 ^ 6 <= RealYellowNetworkBroker.qNo RealYellowNetworkBroker.initialState)
    by (vm_compute; discriminate).
  assert (I3 : 0 <= RealYellowNetworkBroker.totalVolume RealYellowNetworkBroker.initialState)
    by (vm_compute; discriminate).
  assert (I4 : 0 <= RealYellowNetworkBroker.txCount RealYellowNetworkBroker.initialState)
    by (vm_compute; discriminate).
  assert (I5 : RealYellowNetworkBroker.txCount RealYellowNetworkBroker.initialState + Z.of_nat (List.length ts)
               < 2 ^ 53 - 1)
    by (cbn [RealYellowNetworkBroker.txCount RealYellowNetworkBroker.initialState]; lia).
  destruct (G ts RealYellowNetworkBroker.initialState Hall I1 I2 I3 I4 I5)
    as (st & E & HY & HN & HV & HT).
  cbn [RealYellowNetworkBroker.totalVolume RealYellowNetworkBroker.txCount RealYellowNetworkBroker.initialState] in HV, HT.
  assert (Hsum : 0 <= sumZ (map snd ts)).
  { clear - Hall. induction Hall as [| t ts Ht _ IH]; cbn; [lia |].
    fold (sumZ (map snd ts)). lia. }
  exists st. eexists. split; [exact E |].
  split; [exact HY |]. split; [exact HN |]. split; [lia |]. split; [lia |].
  unfold RealYellowNetworkBroker.calculateDynamicB. rewrite bigdiv_pos by lia. cbn [bind].
  split; [reflexivity |].
  pose proof (Z.quot_pos (RealYellowNetworkBroker.totalVolume st) (1000 * 10 ^ 6)). lia.
Qed.

Lemma brokerRun_invariant_witness :
  exists st b,
    brokerRun RealYellowNetworkBroker.initialState [(true, 5 * 10 ^ 6); (false, 2 * 10 ^ 6)] = Ok st /\
    100 * 10 ^ 6 <= RealYellowNetworkBroker.qYes st /\ 100 * 10 ^ 6 <= RealYellowNetworkBroker.qNo st /\
    RealYellowNetworkBroker.totalVolume st = sumZ (map snd [(true, 5 * 10 ^ 6); (false, 2 * 10 ^ 6)]) /\
    RealYellowNetworkBroker.txCount st = Z.of_nat (List.length [(true, 5 * 10 ^ 6); (false, 2 * 10 ^ 6)]) /\
    RealYellowNetworkBroker.calculateDynamicB st = Ok b /\ 100 * 10 ^ 6 <= b.
Proof.
  apply (brokerRun_invariant [(true, 5 * 10 ^ 6); (false, 2 * 10 ^ 6)]).
  - repeat constructor; cbn; lia.
  - cbn. lia.
Defined.

(** ** The aggregation of performRealSettlement *)






Section Aggregation.

Variable BigInt_of_string : string -> option Z.

Import RealYellowNetworkBroker.





End Aggregation.

